(** * get_claude_usage.py: the transcript parser [parse_usage]

    A shallow embedding of [parse_usage] (src/get_claude_usage.py, lines
    156-246) and of the parts of Python's [re] and [str] it relies on.

    - A Python [str] is a list of code points ([N]).
    - The regular expressions of the source are kept as syntax trees and run
      by a backtracking matcher whose list of results is in the priority
      order of Python's engine (greedy quantifiers, left alternative first),
      so that the first result is the match Python reports.
    - Operations that can raise ([lines[j]], [match.group(1)], [int(...)])
      return an [outcome]; [parse_usage] itself returns an [outcome]. *)

From Stdlib Require Import String Ascii NArith ZArith Bool Arith Lia List.
Import ListNotations.

Set Implicit Arguments.

(** ** Strings *)

Definition char := N.
Definition str := list char.

Definition ch (a : ascii) : char := N_of_ascii a.
Definition s2l (s : string) : str := map ch (list_ascii_of_string s).

Definition NL : char := 10%N.
Definition ESC : char := 27%N.
Definition SP : char := 32%N.

Definition in_range (lo hi c : N) : bool := (N.leb lo c && N.leb c hi)%bool.
Definition one_of (s : string) (c : char) : bool := existsb (N.eqb c) (s2l s).

(** [str.isspace()] of one character; the [\s] of a [str] pattern is the same
    set. *)
Definition is_space (c : char) : bool :=
  (in_range 9 13 c || in_range 28 32 c || N.eqb c 133 || N.eqb c 160
   || N.eqb c 5760 || in_range 8192 8202 c || N.eqb c 8232 || N.eqb c 8233
   || N.eqb c 8239 || N.eqb c 8287 || N.eqb c 12288)%bool.

(** [\d].  Every pattern that uses [\d] is run on a line of the cleaned text,
    whose characters are all in [0x20..0x7E]; there the decimal digits are
    exactly [0-9]. *)
Definition is_digit (c : char) : bool := in_range 48 57 c.

(** [str.lower()] of one character, and the case folding of [re.IGNORECASE];
    both are only applied to cleaned text, where the cased characters are
    [A-Z] and [a-z]. *)
Definition lower_char (c : char) : char :=
  if in_range 65 90 c then N.add c 32 else c.

Definition lower (s : str) : str := map lower_char s.

Fixpoint lstrip (s : str) : str :=
  match s with
  | c :: s' => if is_space c then lstrip s' else s
  | [] => []
  end.

Definition rstrip (s : str) : str := rev (lstrip (rev s)).

(** [s.strip()] *)
Definition strip (s : str) : str := rstrip (lstrip s).

Fixpoint starts_with (p s : str) : bool :=
  match p, s with
  | [], _ => true
  | a :: p', b :: s' => (N.eqb a b && starts_with p' s')%bool
  | _ :: _, [] => false
  end.

(** [p in s] *)
Fixpoint contains (p s : str) : bool :=
  (starts_with p s ||
   match s with
   | [] => false
   | _ :: s' => contains p s'
   end)%bool.

(** [s.split(sep)] for a one-character separator: never empty. *)
Fixpoint split_on (sep : char) (s : str) : list str :=
  match s with
  | [] => [[]]
  | c :: s' =>
      if N.eqb c sep then [] :: split_on sep s'
      else match split_on sep s' with
           | l :: ls => (c :: l) :: ls
           | [] => [[c]]
           end
  end.

(** [s[k:]] for any integer [k]: a negative [k] counts from the end, and the
    start is clamped into [0..len(s)]. *)
Definition slice_from (k : Z) (s : str) : str :=
  let n := Z.of_nat (length s) in
  let start := if (k <? 0)%Z then Z.max (n + k) 0 else Z.min k n in
  skipn (Z.to_nat start) s.

(** ** Exceptions *)

Inductive pyexn := IndexError | ValueError | AttributeError.

Inductive outcome (A : Type) : Type :=
| Ret (a : A)
| Raise (e : pyexn).
Arguments Ret {A} a.
Arguments Raise {A} e.

Definition bind {A B} (m : outcome A) (f : A -> outcome B) : outcome B :=
  match m with
  | Ret a => f a
  | Raise e => Raise e
  end.

Notation "x <- m ;; k" := (bind m (fun x => k))
  (at level 61, m at next level, right associativity).

(** [xs[j]] for [j >= 0] *)
Definition index {A} (xs : list A) (j : nat) : outcome A :=
  match nth_error xs j with
  | Some x => Ret x
  | None => Raise IndexError
  end.

Definition digit_val (c : char) : Z := Z.of_N (N.sub c 48).

Definition dec_value (s : str) : Z :=
  fold_left (fun acc c => (10 * acc + digit_val c)%Z) s 0%Z.

(** The interpreter's limit on the conversion between [int] and [str]
    ([sys.get_int_max_str_digits()], 4300 unless it is configured
    otherwise). *)
Definition int_max_str_digits : N := 4300%N.

(** [int(s)] on a string of ASCII digits; any other string is treated as a
    [ValueError].  A string of more than [int_max_str_digits] digits raises
    [ValueError] as well. *)

Definition int_of (s : str) : outcome Z :=
  match s with
  | [] => Raise ValueError
  | _ =>
      if forallb is_digit s
      then if N.leb (N.of_nat (length s)) int_max_str_digits
           then Ret (dec_value s)
           else Raise ValueError
      else Raise ValueError
  end.

(** ** Regular expressions *)

Inductive regex :=
| Lit (c : char)                 (* one literal character *)
| Cls (p : char -> bool)         (* a character class or category *)
| Cat (a b : regex)              (* a b *)
| Alt (a b : regex)              (* a|b *)
| Star (p : char -> bool)        (* X*, X a one-character item, greedy *)
| Plus (p : char -> bool)        (* X+, X a one-character item, greedy *)
| Opt (a : regex)                (* a?, greedy *)
| Grp (n : nat) (a : regex)      (* capturing group number n *)
| Bol.                           (* ^ without re.MULTILINE *)

Declare Scope regex_scope.
Delimit Scope regex_scope with re.
Bind Scope regex_scope with regex.
Notation "a ~ b" := (Cat a b) (at level 41, right associativity) : regex_scope.

(** A run of literal characters. *)
Fixpoint lits_of (s : str) : regex :=
  match s with
  | [] => Opt (Cls (fun _ => false))
  | [c] => Lit c
  | c :: s' => Cat (Lit c) (lits_of s')
  end.
Definition lits (s : string) : regex := lits_of (s2l s).

(** The state of a match attempt: how many characters of the subject lie
    before the current position, the characters from the current position on,
    and the groups captured so far (latest first). *)
Record mstate := MState {
  m_pos : nat;
  m_rest : str;
  m_groups : list (nat * str)
}.

Definition fold_case (ic : bool) (c : char) : char :=
  if ic then lower_char c else c.

Definition advance (st : mstate) : option (char * mstate) :=
  match m_rest st with
  | c :: s' => Some (c, MState (S (m_pos st)) s' (m_groups st))
  | [] => None
  end.

(** Greedy repetition of a one-character item: the longest run first, then
    each shorter one. *)
Fixpoint star_from (ic : bool) (p : char -> bool) (pos : nat) (s : str)
    (g : list (nat * str)) : list mstate :=
  match s with
  | c :: s' =>
      if p (fold_case ic c)
      then star_from ic p (S pos) s' g ++ [MState pos s g]
      else [MState pos s g]
  | [] => [MState pos s g]
  end.

(** All the ways [r] matches at [st], in the order the backtracking engine
    tries them. *)
Fixpoint rmatch (ic : bool) (r : regex) (st : mstate) : list mstate :=
  match r with
  | Lit l =>
      match advance st with
      | Some (c, st') =>
          if N.eqb (fold_case ic c) (fold_case ic l) then [st'] else []
      | None => []
      end
  | Cls p =>
      match advance st with
      | Some (c, st') => if p (fold_case ic c) then [st'] else []
      | None => []
      end
  | Cat a b => flat_map (rmatch ic b) (rmatch ic a st)
  | Alt a b => rmatch ic a st ++ rmatch ic b st
  | Star p => star_from ic p (m_pos st) (m_rest st) (m_groups st)
  | Plus p =>
      match advance st with
      | Some (c, st') =>
          if p (fold_case ic c)
          then star_from ic p (m_pos st') (m_rest st') (m_groups st')
          else []
      | None => []
      end
  | Opt a => rmatch ic a st ++ [st]
  | Grp n a =>
      map (fun st' =>
             MState (m_pos st') (m_rest st')
               ((n, firstn (m_pos st' - m_pos st) (m_rest st))
                  :: m_groups st'))
          (rmatch ic a st)
  | Bol => if Nat.eqb (m_pos st) 0 then [st] else []
  end.

(** A match object: where the match starts, its text ([group(0)]), and its
    groups. *)
Record rematch := ReMatch {
  mt_start : nat;
  mt_text : str;
  mt_groups : list (nat * str)
}.

(** The match of [r] that starts exactly at the current position, if any. *)
Definition match_here (ic : bool) (r : regex) (pos : nat) (s : str)
  : option rematch :=
  match rmatch ic r (MState pos s []) with
  | st :: _ => Some (ReMatch pos (firstn (m_pos st - pos) s) (m_groups st))
  | [] => None
  end.

(** [re.search]: the first position, from the left, with a match. *)
Fixpoint search_from (ic : bool) (r : regex) (pos : nat) (s : str)
  : option rematch :=
  match match_here ic r pos s with
  | Some m => Some m
  | None =>
      match s with
      | _ :: s' => search_from ic r (S pos) s'
      | [] => None
      end
  end.

Definition re_search (ic : bool) (r : regex) (s : str) : option rematch :=
  search_from ic r 0 s.

(** [m.group(n)] for [n >= 1]; a group that took no part in the match is
    [None] in Python, and every use in the source would then raise. *)
Fixpoint assoc (n : nat) (g : list (nat * str)) : option str :=
  match g with
  | (k, v) :: g' => if Nat.eqb k n then Some v else assoc n g'
  | [] => None
  end.

Definition group (m : rematch) (n : nat) : outcome str :=
  match assoc n (mt_groups m) with
  | Some v => Ret v
  | None => Raise AttributeError
  end.

(** [re.sub(r, repl, s)] for a pattern that cannot match the empty string
    (every pattern given to [re.sub] in the source consumes at least one
    character, see [sub_patterns_consume]): scan from the left; at a match,
    emit [repl] and step over the matched characters ([skip] counts those
    still to step over). *)
Fixpoint sub_from (ic : bool) (r : regex) (repl : str) (pos skip : nat)
    (s : str) : str :=
  match s with
  | [] => []
  | c :: s' =>
      match skip with
      | S k => sub_from ic r repl (S pos) k s'
      | O =>
          match match_here ic r pos s with
          | Some m =>
              match length (mt_text m) with
              | S k => repl ++ sub_from ic r repl (S pos) k s'
              | O => c :: sub_from ic r repl (S pos) 0 s'
              end
          | None => c :: sub_from ic r repl (S pos) 0 s'
          end
      end
  end.

Definition re_sub (ic : bool) (r : regex) (repl s : str) : str :=
  sub_from ic r repl 0 0 s.

(** ** The patterns of [parse_usage] *)

Definition is_csi_param (c : char) : bool :=
  (in_range 48 57 c || one_of ";?" c)%bool.
Definition is_ascii_letter (c : char) : bool :=
  (in_range 97 122 c || in_range 65 90 c)%bool.
Definition not_esc (c : char) : bool := negb (N.eqb c ESC).
Definition is_unprintable (c : char) : bool :=
  negb (in_range 32 126 c || N.eqb c NL).
Definition is_sp (c : char) : bool := N.eqb c SP.
Definition colon_or_digit (c : char) : bool :=
  (N.eqb c (ch ":") || is_digit c)%bool.
Definition not_rparen_nl (c : char) : bool :=
  negb (N.eqb c (ch ")") || N.eqb c NL).

(** [\x1b\[[0-9;?]*[a-zA-Z]] *)
Definition csi_re : regex :=
  (Lit ESC ~ Lit (ch "[") ~ Star is_csi_param ~ Cls is_ascii_letter)%re.

(** [\x1b[<>=\]][^\x1b]*] *)
Definition osc_re : regex :=
  (Lit ESC ~ Cls (one_of "<>=]") ~ Star not_esc)%re.

(** [[^\x20-\x7E\n]] *)
Definition unprintable_re : regex := Cls is_unprintable.

(** [ +] *)
Definition spaces_re : regex := Plus is_sp.

(** [(\d+)\s*%] *)
Definition percent_re : regex :=
  (Grp 1 (Plus is_digit) ~ Star is_space ~ Lit (ch "%"))%re.

(** [resets?\s*(G)] where the group G is [\d+[:\d]*\s*[ap]m[^)\n]*], with
    [re.IGNORECASE] *)
Definition session_reset_re : regex :=
  (lits "reset" ~ Opt (Lit (ch "s")) ~ Star is_space ~
   Grp 1 (Plus is_digit ~ Star colon_or_digit ~ Star is_space ~
          Cls (one_of "ap") ~ Lit (ch "m") ~ Star not_rparen_nl))%re.

(** [(jan|feb|mar|apr|may|jun|jul|aug|sep|oct|nov|dec)] *)
Definition month_re : regex :=
  Grp 1
    (Alt (lits "jan") (Alt (lits "feb") (Alt (lits "mar") (Alt (lits "apr")
    (Alt (lits "may") (Alt (lits "jun") (Alt (lits "jul") (Alt (lits "aug")
    (Alt (lits "sep") (Alt (lits "oct") (Alt (lits "nov")
    (lits "dec")))))))))))).

(** [resets?\s*(jan|...|dec)[^)\n]+], with [re.IGNORECASE] *)
Definition weekly_reset_re : regex :=
  (lits "reset" ~ Opt (Lit (ch "s")) ~ Star is_space ~ month_re ~
   Plus not_rparen_nl)%re.

(** [^resets?\s*], with [re.IGNORECASE] *)
Definition leading_resets_re : regex :=
  (Bol ~ lits "reset" ~ Opt (Lit (ch "s")) ~ Star is_space)%re.

(** ** The result record *)

Record usage := Usage {
  session_percent : Z;
  session_reset : str;
  weekly_percent : Z;
  weekly_reset : str;
  sonnet_percent : Z;
  raw : str
}.

Definition set_session_percent (v : Z) (r : usage) : usage :=
  Usage v (session_reset r) (weekly_percent r) (weekly_reset r)
        (sonnet_percent r) (raw r).
Definition set_session_reset (v : str) (r : usage) : usage :=
  Usage (session_percent r) v (weekly_percent r) (weekly_reset r)
        (sonnet_percent r) (raw r).
Definition set_weekly_percent (v : Z) (r : usage) : usage :=
  Usage (session_percent r) (session_reset r) v (weekly_reset r)
        (sonnet_percent r) (raw r).
Definition set_weekly_reset (v : str) (r : usage) : usage :=
  Usage (session_percent r) (session_reset r) (weekly_percent r) v
        (sonnet_percent r) (raw r).
Definition set_sonnet_percent (v : Z) (r : usage) : usage :=
  Usage (session_percent r) (session_reset r) (weekly_percent r)
        (weekly_reset r) v (raw r).
Definition set_raw (v : str) (r : usage) : usage :=
  Usage (session_percent r) (session_reset r) (weekly_percent r)
        (weekly_reset r) (sonnet_percent r) v.

(** ** [parse_usage] *)

(** The first two substitutions: the control-sequence-stripping stage. *)
Definition strip_escapes (text : str) : str :=
  re_sub false osc_re [] (re_sub false csi_re [] text).

(** The four substitutions that produce [clean]. *)
Definition clean_text (text : str) : str :=
  re_sub false spaces_re [SP]
    (re_sub false unprintable_re [SP] (strip_escapes text)).

(** [range(lo, hi)] *)
Definition range (lo hi : nat) : list nat := seq lo (hi - lo).

(** [for j in js: m = f(lines[j]); if m: ...; break]: what the first line
    with a match yields, if any line has one. *)
Fixpoint scan {A} (f : str -> outcome (option A)) (lines : list str)
    (js : list nat) : outcome (option A) :=
  match js with
  | [] => Ret None
  | j :: js' =>
      l <- index lines j ;;
      m <- f l ;;
      match m with
      | Some a => Ret (Some a)
      | None => scan f lines js'
      end
  end.

(** [re.search(r'(\d+)\s*%', l)] and, on a match, [int(match.group(1))] *)
Definition percent_at (l : str) : outcome (option Z) :=
  match re_search false percent_re l with
  | Some m => g <- group m 1 ;; v <- int_of g ;; Ret (Some v)
  | None => Ret None
  end.

(** the session reset search and, on a match,
    [reset_match.group(1).strip()] *)
Definition session_reset_at (l : str) : outcome (option str) :=
  match re_search true session_reset_re l with
  | Some m => g <- group m 1 ;; Ret (Some (strip g))
  | None => Ret None
  end.

(** the weekly reset search and, on a match, [group(0)] with the leading
    [resets?\s*] removed, stripped *)
Definition weekly_reset_at (l : str) : outcome (option str) :=
  match re_search true weekly_reset_re l with
  | Some m =>
      let reset_text := mt_text m in
      let reset_text := re_sub true leading_resets_re [] reset_text in
      Ret (Some (strip reset_text))
  | None => Ret None
  end.

Definition is_session_header (line : str) : bool :=
  contains (s2l "current session") line.
Definition is_weekly_header (line : str) : bool :=
  (contains (s2l "current week") line && contains (s2l "all models") line)%bool.
Definition is_sonnet_header (line : str) : bool :=
  contains (s2l "sonnet only") line.

Definition assign {A} (set : A -> usage -> usage) (m : option A)
    (result : usage) : usage :=
  match m with
  | Some v => set v result
  | None => result
  end.

(** One iteration of the [while] loop, at index [i]. *)
Definition step (lines : list str) (i : nat) (result : usage)
  : outcome usage :=
  li <- index lines i ;;
  let line := lower (strip li) in
  let n := length lines in
  result <-
    (if is_session_header line then
       m <- scan percent_at lines (range i (Nat.min (i + 3) n)) ;;
       let result := assign set_session_percent m result in
       m <- scan session_reset_at lines (range i (Nat.min (i + 3) n)) ;;
       Ret (assign set_session_reset m result)
     else Ret result) ;;
  result <-
    (if is_weekly_header line then
       m <- scan percent_at lines (range i (Nat.min (i + 3) n)) ;;
       let result := assign set_weekly_percent m result in
       m <- scan weekly_reset_at lines (range i (Nat.min (i + 5) n)) ;;
       Ret (assign set_weekly_reset m result)
     else Ret result) ;;
  (if is_sonnet_header line then
     m <- scan percent_at lines (range i (Nat.min (i + 3) n)) ;;
     Ret (assign set_sonnet_percent m result)
   else Ret result).

(** [i = 0; while i < len(lines): ...; i += 1], over the indices still to
    visit. *)
Fixpoint loop (lines : list str) (todo : list nat) (result : usage)
  : outcome usage :=
  match todo with
  | [] => Ret result
  | i :: todo' => result <- step lines i result ;; loop lines todo' result
  end.

Definition initial : usage := Usage 0 [] 0 [] 0 [].

Definition parse_usage (text : str) : outcome usage :=
  let result := initial in
  let clean := clean_text text in
  let result := set_raw (slice_from (-1000) clean) result in
  let lines := split_on NL clean in
  loop lines (range 0 (length lines)) result.

(** Joining lines with newlines, to write transcripts down. *)
Fixpoint unlines (ls : list string) : str :=
  match ls with
  | [] => []
  | [l] => s2l l
  | l :: ls' => s2l l ++ NL :: unlines ls'
  end.

(** ** [find_claude_cli] *)

(** The truth value of [shutil.which]'s result: [None] and the empty string
    are false. *)
Definition truthy (o : option str) : bool :=
  match o with
  | Some (_ :: _) => true
  | _ => false
  end.

(** [possible_paths], for the home directory [home]. *)
Definition possible_paths (home : str) : list str :=
  [home ++ s2l "/.local/bin/claude";
   s2l "/usr/local/bin/claude";
   s2l "/opt/homebrew/bin/claude";
   home ++ s2l "/.npm-global/bin/claude";
   s2l "/usr/bin/claude"].

(** [for path in paths: if os.path.isfile(path) and os.access(path, os.X_OK):
    return path], and [None] after the loop; [isfile] and [access_x] are the
    answers of the file system. *)
Fixpoint first_executable (isfile access_x : str -> bool) (paths : list str)
  : option str :=
  match paths with
  | [] => None
  | path :: paths' =>
      if (isfile path && access_x path)%bool then Some path
      else first_executable isfile access_x paths'
  end.

(** [find_claude_cli], with [which_claude] the result of
    [shutil.which('claude')] and [home] that of [os.path.expanduser('~')]. *)
Definition find_claude_cli (which_claude : option str) (home : str)
    (isfile access_x : str -> bool) : option str :=
  if truthy which_claude then which_claude
  else first_executable isfile access_x (possible_paths home).

(** ** [main] *)

(** [json.dumps] of a string, with the default [ensure_ascii=True]: the
    quote, the backslash and every character outside [0x20..0x7E] are
    escaped, characters above [0xFFFF] as a surrogate pair. *)
Definition hex_digit (n : N) : char :=
  if N.ltb n 10 then N.add 48 n else N.add 87 n.

Definition hex4 (n : N) : str :=
  [hex_digit (N.modulo (N.div n 4096) 16);
   hex_digit (N.modulo (N.div n 256) 16);
   hex_digit (N.modulo (N.div n 16) 16);
   hex_digit (N.modulo n 16)].

Definition u_escape (n : N) : str := 92%N :: ch "u" :: hex4 n.

Definition json_escape_char (c : char) : str :=
  if N.eqb c 34 then [92; 34]%N
  else if N.eqb c 92 then [92; 92]%N
  else if N.eqb c 10 then [92%N; ch "n"]
  else if N.eqb c 13 then [92%N; ch "r"]
  else if N.eqb c 9 then [92%N; ch "t"]
  else if N.eqb c 8 then [92%N; ch "b"]
  else if N.eqb c 12 then [92%N; ch "f"]
  else if in_range 32 126 c then [c]
  else if N.ltb c 65536 then u_escape c
  else let n := N.sub c 65536 in
       u_escape (N.lor 55296 (N.land (N.shiftr n 10) 1023))
       ++ u_escape (N.lor 56320 (N.land n 1023)).

Definition json_string (s : str) : str :=
  34%N :: flat_map json_escape_char s ++ [34%N].

(** [str(n)] of an integer, in decimal. *)
Fixpoint uint_str (u : Decimal.uint) : str :=
  match u with
  | Decimal.Nil => []
  | Decimal.D0 u' => ch "0" :: uint_str u'
  | Decimal.D1 u' => ch "1" :: uint_str u'
  | Decimal.D2 u' => ch "2" :: uint_str u'
  | Decimal.D3 u' => ch "3" :: uint_str u'
  | Decimal.D4 u' => ch "4" :: uint_str u'
  | Decimal.D5 u' => ch "5" :: uint_str u'
  | Decimal.D6 u' => ch "6" :: uint_str u'
  | Decimal.D7 u' => ch "7" :: uint_str u'
  | Decimal.D8 u' => ch "8" :: uint_str u'
  | Decimal.D9 u' => ch "9" :: uint_str u'
  end.

Definition json_int (z : Z) : str :=
  match Z.to_int z with
  | Decimal.Pos u => uint_str u
  | Decimal.Neg u => ch "-" :: uint_str u
  end.

(** A JSON value of the kinds [main] prints. *)
Inductive jvalue := JInt (z : Z) | JStr (s : str).

Definition json_value (v : jvalue) : str :=
  match v with
  | JInt z => json_int z
  | JStr s => json_string s
  end.

Definition json_item (kv : string * jvalue) : str :=
  json_string (s2l (fst kv)) ++ s2l ": " ++ json_value (snd kv).

Fixpoint json_items (kvs : list (string * jvalue)) : str :=
  match kvs with
  | [] => []
  | [kv] => json_item kv
  | kv :: kvs' => json_item kv ++ s2l ", " ++ json_items kvs'
  end.

(** [json.dumps] of a dict, its items in insertion order. *)
Definition json_dumps (kvs : list (string * jvalue)) : str :=
  ch "{" :: json_items kvs ++ [ch "}"].

(** The [result] dict, in the order its keys were inserted. *)
Definition result_dict (r : usage) : list (string * jvalue) :=
  [("session_percent", JInt (session_percent r));
   ("session_reset", JStr (session_reset r));
   ("weekly_percent", JInt (weekly_percent r));
   ("weekly_reset", JStr (weekly_reset r));
   ("sonnet_percent", JInt (sonnet_percent r));
   ("raw", JStr (raw r))]%string.

Definition error_dict (msg : str) : list (string * jvalue) :=
  [("error", JStr msg)]%string.

(** How [get_usage] can end: with the transcript, with
    [FileNotFoundError], with another exception that is an [Exception], or
    with one that is not ([KeyboardInterrupt] during a [select] or a
    [sleep], [SystemExit]); [msg] is [str(e)]. *)
Inductive get_usage_outcome :=
| Transcript (text : str)
| FileNotFound (msg : str)
| OtherException (msg : str)
| NonException.

(** How [main] can end: it has written [out] to standard output and the
    process ends with [status] (1 for [sys.exit(1)], 0 when [main] returns),
    or an exception that no handler of [main] catches leaves it. *)
Inductive main_result :=
| Exits (out : str) (status : Z)
| Escapes.

(** [main]; [describe] gives [str(e)] for an exception of [parse_usage]. *)
Definition main (describe : pyexn -> str) (got : get_usage_outcome)
  : main_result :=
  match got with
  | Transcript text =>
      match parse_usage text with
      | Ret result => Exits (json_dumps (result_dict result) ++ [NL]) 0
      | Raise e =>
          Exits (json_dumps
                   (error_dict (s2l "Unexpected error: " ++ describe e))
                 ++ [NL]) 1
      end
  | FileNotFound msg => Exits (json_dumps (error_dict msg) ++ [NL]) 1
  | OtherException msg =>
      Exits (json_dumps (error_dict (s2l "Unexpected error: " ++ msg))
             ++ [NL]) 1
  | NonException => Escapes
  end.

(** * Vocabulary of the properties *)

(** The character is in the class [p], after the case folding of the flag. *)
Definition holds (ic : bool) (p : char -> bool) (c : char) : bool :=
  p (fold_case ic c).

(** The length of the longest run of the class at the start of [s]. *)
Fixpoint run_length (ic : bool) (p : char -> bool) (s : str) : nat :=
  match s with
  | c :: s' => if holds ic p c then S (run_length ic p s') else 0
  | [] => 0
  end.

(** Every character the pattern can consume satisfies [P]. *)
Fixpoint accepts_only (ic : bool) (P : char -> Prop) (r : regex) : Prop :=
  match r with
  | Lit l => forall c, fold_case ic c = fold_case ic l -> P c
  | Cls p | Star p | Plus p => forall c, holds ic p c = true -> P c
  | Cat a b | Alt a b => accepts_only ic P a /\ accepts_only ic P b
  | Opt a | Grp _ a => accepts_only ic P a
  | Bol => True
  end.

(** The least number of characters a match of the pattern consumes. *)
Fixpoint min_width (r : regex) : nat :=
  match r with
  | Lit _ | Cls _ | Plus _ => 1
  | Cat a b => min_width a + min_width b
  | Alt a b => Nat.min (min_width a) (min_width b)
  | Star _ | Opt _ | Bol => 0
  | Grp _ a => min_width a
  end.

(** An occurrence in [l] of digits, optional whitespace and a percent sign:
    [a] before it, [d] the digits, [w] the whitespace, [b] after it. *)
Definition pct_occurrence (l a d w b : str) : Prop :=
  l = a ++ d ++ w ++ ch "%" :: b /\ d <> [] /\
  forallb is_digit d = true /\ forallb is_space w = true.

(** Collapsing runs of spaces, written as a scan that remembers whether it is
    inside a run. *)
Fixpoint squeeze (in_run : bool) (s : str) : str :=
  match s with
  | [] => []
  | c :: s' =>
      if is_sp c
      then if in_run then squeeze true s' else SP :: squeeze true s'
      else c :: squeeze false s'
  end.

(** What the third substitution makes of one character. *)
Definition printable (c : char) : char := if is_unprintable c then SP else c.

(** Printable ASCII or a newline. *)
Definition is_clean_char (c : char) : bool :=
  (in_range 32 126 c || N.eqb c NL)%bool.

(** The text starts with a space. *)
Definition head_is_sp (s : str) : bool :=
  match s with
  | c :: _ => is_sp c
  | [] => false
  end.

(** No two neighbouring characters are both spaces. *)
Fixpoint single_spaced (s : str) : bool :=
  match s with
  | c :: s' => (negb (is_sp c && head_is_sp s') && single_spaced s')%bool
  | [] => true
  end.

(** What one header line contributes to a field: the first match in the
    window of [k] lines that starts at line [i], when line [i] is a header. *)
Definition hit {A} (f : str -> outcome (option A)) (hdr : str -> bool)
    (k : nat) (lines : list str) (i : nat) : option A :=
  match nth_error lines i with
  | Some li =>
      if hdr (lower (strip li))
      then match scan f lines (range i (Nat.min (i + k) (length lines))) with
           | Ret m => m
           | Raise _ => None
           end
      else None
  | None => None
  end.

(** Not a closing parenthesis. *)
Definition not_rparen (c : char) : Prop := c <> ch ")".

(** What the iteration at line [i] does to the record: each field takes the
    value its header window yields, if any. *)
Definition apply_hits (lines : list str) (i : nat) (r : usage) : usage :=
  assign set_sonnet_percent (hit percent_at is_sonnet_header 3 lines i)
    (assign set_weekly_reset (hit weekly_reset_at is_weekly_header 5 lines i)
      (assign set_weekly_percent (hit percent_at is_weekly_header 3 lines i)
        (assign set_session_reset
           (hit session_reset_at is_session_header 3 lines i)
          (assign set_session_percent
             (hit percent_at is_session_header 3 lines i) r)))).

(** A field that each iteration either overwrites or leaves alone. *)
Definition upd {B} (o : option B) (x : B) : B :=
  match o with
  | Some v => v
  | None => x
  end.

(** The lines of the cleaned text. *)
Definition clean_lines (text : str) : list str :=
  split_on NL (clean_text text).






(** Neither a closing parenthesis nor a newline occurs in the text. *)
Definition reset_text_ok (v : str) : Prop :=
  Forall not_rparen v /\ Forall (fun c => c <> NL) v.

(** The session scenario of the specification. *)
Definition session_scenario : str :=
  unlines ["Current session"; "  45%"; "  Resets 3:00pm (America/NY)"]%string.

(** The weekly scenario of the specification. *)
Definition weekly_scenario : str :=
  unlines ["Current week (all models)"; "  12%"; "  Resets Jan 5, 2025"]%string.

(** The three sections of the usage screen. *)
Inductive section := Session | Weekly | Sonnet.

(** The header test of a section. *)
Definition header_of (sec : section) : str -> bool :=
  match sec with
  | Session => is_session_header
  | Weekly => is_weekly_header
  | Sonnet => is_sonnet_header
  end.

(** The percent field of a section. *)
Definition percent_of (sec : section) : usage -> Z :=
  match sec with
  | Session => session_percent
  | Weekly => weekly_percent
  | Sonnet => sonnet_percent
  end.

(** The pattern in the words of the claim: digits immediately followed by a
    percent sign, [a] before it, [d] the digits, [b] after it. *)
Definition immediate_occurrence (l a d b : str) : Prop :=
  l = a ++ d ++ ch "%" :: b /\ d <> [] /\ forallb is_digit d = true.

(** A digit or the percent sign. *)
Definition digit_or_pct (c : char) : Prop := is_digit c = true \/ c = ch "%".

(** Neither the first nor the last character is whitespace. *)
Definition trimmed (s : str) : Prop :=
  (forall c t, s = c :: t -> is_space c = false) /\
  (forall t c, s = t ++ [c] -> is_space c = false).

(** The pattern has no [^]. *)
Fixpoint anchor_free (r : regex) : Prop :=
  match r with
  | Bol => False
  | Cat a b | Alt a b => anchor_free a /\ anchor_free b
  | Opt a | Grp _ a => anchor_free a
  | _ => True
  end.

(** The same state, [k] characters further into the subject. *)
Definition shift (k : nat) (st : mstate) : mstate :=
  MState (k + m_pos st) (m_rest st) (m_groups st).

(** A clock time: a digit, then digits, colons and whitespace, then [a] or
    [p] and [m] in either letter case, then any text. *)
Definition clock_like (v : str) : Prop :=
  exists d mid x y tl,
    v = d :: mid ++ x :: y :: tl /\ is_digit d = true /\
    Forall (fun c => is_digit c = true \/ c = ch ":" \/ is_space c = true)
           mid /\
    one_of "ap" (lower_char x) = true /\ lower_char y = ch "m".

(** Printable ASCII. *)
Definition is_pr (c : char) : bool := in_range 32 126 c.

(** The Sonnet scenario of the specification. *)
Definition sonnet_scenario : str := unlines ["Sonnet only"; "  7%"]%string.

(** The leftmost occurrence on the line, if there is one, has no more
    digits than [int] converts. *)
Definition pct_convertible (l : str) : Prop :=
  forall a d w b,
    pct_occurrence l a d w b ->
    (forall a' d' w' b', pct_occurrence l a' d' w' b' ->
                         length a <= length a') ->
    (N.of_nat (length d) <= int_max_str_digits)%N.

(** The line is a header of one of the three sections. *)
Definition is_any_header (line : str) : bool :=
  (is_session_header line || is_weekly_header line
   || is_sonnet_header line)%bool.

(** In the three-line window of every header line, the first line with an
    occurrence, the one the percent scan stops at, is [pct_convertible]:
    the percent values the loop reaches have at most [int_max_str_digits]
    digits. *)
Definition convertible (lines : list str) : Prop :=
  forall i li j l,
    nth_error lines i = Some li ->
    is_any_header (lower (strip li)) = true ->
    i <= j < i + 3 -> nth_error lines j = Some l ->
    (forall j' l', i <= j' < j -> nth_error lines j' = Some l' ->
                   forall a d w b, ~ pct_occurrence l' a d w b) ->
    pct_convertible l.

(** [convertible] as a check: the percent scan of no header line raises. *)
Definition convertibleb (lines : list str) : bool :=
  forallb
    (fun i =>
       match nth_error lines i with
       | Some li =>
           if is_any_header (lower (strip li))
           then match scan percent_at lines
                        (range i (Nat.min (i + 3) (length lines))) with
                | Ret _ => true
                | Raise _ => false
                end
           else true
       | None => true
       end)
    (range 0 (length lines)).

(** * Properties *)

(** ** Strings and lists *)

Lemma split_on_nonempty sep s : split_on sep s <> [].
Proof.
  destruct s as [|c s]; simpl; [discriminate|].
  destruct (N.eqb c sep); [discriminate|].
  destruct (split_on sep s); discriminate.
Qed.

Lemma split_on_app sep a b :
  split_on sep (a ++ sep :: b) = split_on sep a ++ split_on sep b.
Proof.
  induction a as [|c a IH]; simpl.
  - now rewrite N.eqb_refl.
  - destruct (N.eqb c sep); [now rewrite IH|].
    rewrite IH.
    destruct (split_on sep a) eqn:E; [now apply split_on_nonempty in E|].
    reflexivity.
Qed.

Lemma split_on_no_sep sep s :
  Forall (Forall (fun c => c <> sep)) (split_on sep s).
Proof.
  induction s as [|c s IH]; simpl.
  - repeat constructor.
  - destruct (N.eqb_spec c sep) as [->|Hne]; [now repeat constructor|].
    destruct (split_on sep s) as [|l ls]; [now repeat constructor|].
    inversion IH; subst. constructor; [now constructor|assumption].
Qed.

Lemma starts_with_spec p s :
  starts_with p s = true <-> exists b, s = p ++ b.
Proof.
  revert s. induction p as [|a p IH]; intros s; simpl.
  - split; [intros _; now exists s|reflexivity].
  - destruct s as [|c s].
    + split; [discriminate|intros [b Hb]; discriminate].
    + rewrite andb_true_iff, N.eqb_eq, IH. split.
      * intros [-> [b ->]]. now exists b.
      * intros [b Hb]. injection Hb as -> ->. split; [reflexivity|now exists b].
Qed.

Lemma contains_spec p s :
  contains p s = true <-> exists a b, s = a ++ p ++ b.
Proof.
  induction s as [|c s IH]; simpl.
  - rewrite orb_false_r, starts_with_spec. split.
    + intros [b Hb]. now exists [], b.
    + intros [a [b Hb]]. destruct a; [now exists b|discriminate].
  - rewrite orb_true_iff, starts_with_spec, IH. split.
    + intros [[b Hb]|[a [b Hb]]].
      * now exists [], b.
      * exists (c :: a), b. now rewrite Hb.
    + intros [a [b Hb]]. destruct a as [|x a].
      * left. now exists b.
      * right. injection Hb as _ ->. now exists a, b.
Qed.

Lemma lstrip_suffix s : exists w, s = w ++ lstrip s.
Proof.
  induction s as [|c s [w IH]]; simpl.
  - now exists [].
  - destruct (is_space c).
    + exists (c :: w). simpl. now rewrite <- IH.
    + now exists [].
Qed.

Lemma strip_infix s : exists a b, s = a ++ strip s ++ b.
Proof.
  unfold strip, rstrip.
  destruct (lstrip_suffix s) as [a Ha].
  destruct (lstrip_suffix (rev (lstrip s))) as [b Hb].
  exists a, (rev b).
  rewrite <- rev_app_distr, <- Hb, rev_involutive. exact Ha.
Qed.

Lemma Forall_strip (P : char -> Prop) s : Forall P s -> Forall P (strip s).
Proof.
  intros H. destruct (strip_infix s) as [a [b E]].
  rewrite E in H. apply Forall_app in H as [_ H].
  now apply Forall_app in H as [H _].
Qed.

(** A phrase found in the stripped, lower-cased line is found in the
    lower-cased line. *)
Lemma contains_lower_strip p l :
  contains p (lower (strip l)) = true -> contains p (lower l) = true.
Proof.
  rewrite !contains_spec. intros [a [b E]].
  destruct (strip_infix l) as [u [v Hl]].
  exists (lower u ++ a), (b ++ lower v).
  rewrite Hl at 1. unfold lower in *. rewrite !map_app, E.
  now rewrite <- !app_assoc.
Qed.

Lemma app_same_length {A} : forall (a a' s s' : list A),
  a ++ s = a' ++ s' -> length a = length a' -> a = a' /\ s = s'.
Proof.
  induction a as [|x a IH]; intros [|y a'] s s' E L; simpl in *;
    try discriminate.
  - now split.
  - injection E as <- E. destruct (IH a' s s' E) as [<- <-]; [lia|now split].
Qed.

(** ** The matcher *)

Section Matcher.

Variable ic : bool.

(** The results of a greedy repetition are exactly the runs of characters of
    the class at the start of the subject. *)
Lemma in_star_from p pos s g st' :
  In st' (star_from ic p pos s g) <->
  exists run rest, s = run ++ rest /\ forallb (holds ic p) run = true /\
                   st' = MState (pos + length run) rest g.
Proof.
  revert pos. induction s as [|c s IH]; intros pos; simpl.
  - split.
    + intros [<-|[]]. exists [], []. now rewrite Nat.add_0_r.
    + intros (run & rest & E & _ & ->). symmetry in E.
      apply app_eq_nil in E as [-> ->]. left. now rewrite Nat.add_0_r.
  - destruct (p (fold_case ic c)) eqn:Hp.
    + rewrite in_app_iff, IH. simpl. split.
      * intros [(run & rest & -> & Hr & ->)|[<-|[]]].
        -- exists (c :: run), rest. simpl. unfold holds at 1. rewrite Hp.
           repeat split; [assumption|]. f_equal. lia.
        -- exists [], (c :: s). now rewrite Nat.add_0_r.
      * intros (run & rest & E & Hr & ->). destruct run as [|x run].
        -- right. left. simpl in E. subst rest. now rewrite Nat.add_0_r.
        -- left. injection E as <- ->. simpl in Hr.
           apply andb_true_iff in Hr as [_ Hr].
           exists run, rest. repeat split; [assumption|]. f_equal.
           simpl. lia.
    + split.
      * intros [<-|[]]. exists [], (c :: s). now rewrite Nat.add_0_r.
      * intros (run & rest & E & Hr & ->). destruct run as [|x run].
        -- left. simpl in E. subst rest. now rewrite Nat.add_0_r.
        -- injection E as <- ->. simpl in Hr. unfold holds at 1 in Hr.
           now rewrite Hp in Hr.
Qed.

(** The first result of a greedy repetition is the longest run. *)
Lemma star_from_head p pos s g :
  exists tl, star_from ic p pos s g =
             MState (pos + run_length ic p s) (skipn (run_length ic p s) s) g :: tl.
Proof.
  revert pos. induction s as [|c s IH]; intros pos; simpl.
  - exists []. now rewrite Nat.add_0_r.
  - unfold holds. destruct (p (fold_case ic c)).
    + destruct (IH (S pos)) as [tl ->]. eexists. simpl.
      now rewrite Nat.add_succ_r.
    + exists []. now rewrite Nat.add_0_r.
Qed.

Lemma in_rmatch_Plus p st st' :
  In st' (rmatch ic (Plus p) st) <->
  exists c run rest, m_rest st = c :: run ++ rest /\ holds ic p c = true /\
                     forallb (holds ic p) run = true /\
                     st' = MState (m_pos st + S (length run)) rest (m_groups st).
Proof.
  destruct st as [pos [|c s] g]; unfold rmatch, advance; simpl.
  - split; [intros []|intros (c & run & rest & E & _); discriminate].
  - fold (holds ic p c). destruct (holds ic p c) eqn:Hp.
    + rewrite in_star_from. simpl. split.
      * intros (run & rest & -> & Hr & ->). exists c, run, rest.
        repeat split; try assumption. f_equal. lia.
      * intros (c' & run & rest & E & _ & Hr & ->). injection E as <- ->.
        exists run, rest. repeat split; [assumption|]. f_equal. lia.
    + split; [intros []|].
      intros (c' & run & rest & E & Hc & _). injection E as <- _.
      now rewrite Hp in Hc.
Qed.

Lemma forallb_holds_Forall (P : char -> Prop) p run :
  (forall c, holds ic p c = true -> P c) ->
  forallb (holds ic p) run = true -> Forall P run.
Proof.
  intros HP H. rewrite forallb_forall in H. apply Forall_forall. auto.
Qed.

(** A match consumes a prefix of the subject, moves the position by its
    length, and consumes only characters the pattern accepts. *)
Lemma rmatch_consumes (P : char -> Prop) r : forall st st',
  accepts_only ic P r -> In st' (rmatch ic r st) ->
  exists w, m_rest st = w ++ m_rest st' /\
            m_pos st' = m_pos st + length w /\ Forall P w.
Proof.
  induction r as [l|p|a IHa b IHb|a IHa b IHb|p|p|a IHa|n a IHa|];
    intros st st' HP Hin; simpl in HP, Hin.
  - unfold advance in Hin. destruct st as [pos [|c s] g]; simpl in *; [easy|].
    destruct (N.eqb_spec (fold_case ic c) (fold_case ic l)); [|easy].
    destruct Hin as [<-|[]]. exists [c]. simpl.
    repeat split; [lia|]. constructor; auto.
  - unfold advance in Hin. destruct st as [pos [|c s] g]; simpl in *; [easy|].
    destruct (p (fold_case ic c)) eqn:Hp; [|easy].
    destruct Hin as [<-|[]]. exists [c]. simpl.
    repeat split; [lia|]. constructor; auto.
  - apply in_flat_map in Hin as (st1 & H1 & H2). destruct HP as [Pa Pb].
    destruct (IHa _ _ Pa H1) as (w1 & E1 & L1 & F1).
    destruct (IHb _ _ Pb H2) as (w2 & E2 & L2 & F2).
    exists (w1 ++ w2). rewrite E1, E2, <- app_assoc, length_app.
    repeat split; [lia|]. now apply Forall_app.
  - destruct HP as [Pa Pb]. apply in_app_iff in Hin as [H|H]; eauto.
  - apply in_star_from in Hin as (run & rest & E & Hr & ->). exists run.
    simpl. repeat split; [assumption|]. eapply forallb_holds_Forall; eauto.
  - apply in_rmatch_Plus in Hin as (c & run & rest & E & Hc & Hr & ->).
    exists (c :: run). simpl. repeat split; [assumption|].
    constructor; [auto|]. eapply forallb_holds_Forall; eauto.
  - apply in_app_iff in Hin as [H|[<-|[]]]; [eauto|].
    exists []. simpl. repeat split; [lia|constructor].
  - apply in_map_iff in Hin as (st2 & <- & H2). simpl. eauto.
  - destruct (Nat.eqb (m_pos st) 0); [|easy]. destruct Hin as [<-|[]].
    exists []. simpl. repeat split; [lia|constructor].
Qed.

(** What a capturing group records is the text its body consumed. *)
Lemma in_rmatch_Grp (P : char -> Prop) n a st st' :
  accepts_only ic P a -> In st' (rmatch ic (Grp n a) st) ->
  exists w g, m_rest st = w ++ m_rest st' /\
              m_pos st' = m_pos st + length w /\ Forall P w /\
              In (MState (m_pos st') (m_rest st') g) (rmatch ic a st) /\
              m_groups st' = (n, w) :: g.
Proof.
  intros HP Hin. simpl in Hin. apply in_map_iff in Hin as (st2 & <- & H2).
  destruct (@rmatch_consumes P a st st2 HP H2) as (w & E & L & F).
  exists w, (m_groups st2). simpl. repeat split; try assumption.
  - now destruct st2.
  - rewrite E, L. replace (m_pos st + length w - m_pos st) with (length w) by lia.
    now rewrite firstn_app, Nat.sub_diag, firstn_all, app_nil_r.
Qed.

End Matcher.

Lemma in_rmatch_Lit ic l st st' :
  In st' (rmatch ic (Lit l) st) <->
  exists c rest, m_rest st = c :: rest /\
                 fold_case ic c = fold_case ic l /\
                 st' = MState (S (m_pos st)) rest (m_groups st).
Proof.
  destruct st as [pos [|c s] g]; unfold rmatch, advance; simpl.
  - split; [intros []|intros (c & rest & E & _); discriminate].
  - destruct (N.eqb_spec (fold_case ic c) (fold_case ic l)) as [E|E]; simpl.
    + split.
      * intros [<-|[]]. now exists c, s.
      * intros (c' & rest & H & _ & ->). injection H as <- <-. now left.
    + split; [intros []|].
      intros (c' & rest & H & H' & _). injection H as <- <-. contradiction.
Qed.

Lemma in_rmatch_Cls ic p st st' :
  In st' (rmatch ic (Cls p) st) <->
  exists c rest, m_rest st = c :: rest /\ holds ic p c = true /\
                 st' = MState (S (m_pos st)) rest (m_groups st).
Proof.
  destruct st as [pos [|c s] g]; unfold rmatch, advance, holds; simpl.
  - split; [intros []|intros (c & rest & E & _); discriminate].
  - destruct (p (fold_case ic c)) eqn:E; simpl.
    + split.
      * intros [<-|[]]. now exists c, s.
      * intros (c' & rest & H & _ & ->). injection H as <- <-. now left.
    + split; [intros []|].
      intros (c' & rest & H & H' & _). injection H as <- <-. congruence.
Qed.

Lemma in_rmatch_Cat ic a b st st' :
  In st' (rmatch ic (Cat a b) st) <->
  exists st1, In st1 (rmatch ic a st) /\ In st' (rmatch ic b st1).
Proof. simpl. apply in_flat_map. Qed.

(** A match consumes at least [min_width] characters. *)
Lemma rmatch_min_width ic r st st' :
  In st' (rmatch ic r st) -> m_pos st + min_width r <= m_pos st'.
Proof.
  revert st st'.
  induction r as [l|p|a IHa b IHb|a IHa b IHb|p|p|a IHa|n a IHa|];
    intros st st' Hin; simpl min_width.
  - apply in_rmatch_Lit in Hin as (c & rest & _ & _ & ->). simpl. lia.
  - apply in_rmatch_Cls in Hin as (c & rest & _ & _ & ->). simpl. lia.
  - apply in_rmatch_Cat in Hin as (st1 & H1 & H2).
    apply IHa in H1. apply IHb in H2. lia.
  - simpl in Hin. apply in_app_iff in Hin as [H|H];
      [apply IHa in H|apply IHb in H]; lia.
  - simpl in Hin. apply in_star_from in Hin as (run & rest & _ & _ & ->).
    simpl. lia.
  - apply in_rmatch_Plus in Hin as (c & run & rest & _ & _ & _ & ->).
    simpl. lia.
  - simpl in Hin. apply in_app_iff in Hin as [H|[<-|[]]];
      [apply IHa in H|]; lia.
  - simpl in Hin. apply in_map_iff in Hin as (st2 & <- & H2).
    apply IHa in H2. simpl. lia.
  - simpl in Hin. destruct (Nat.eqb (m_pos st) 0); [|easy].
    destruct Hin as [<-|[]]. lia.
Qed.

(** None of the patterns given to [re.sub] can match the empty string. *)
Lemma sub_patterns_consume :
  Forall (fun r => 1 <= min_width r)
         [csi_re; osc_re; unprintable_re; spaces_re; leading_resets_re].
Proof. repeat constructor; vm_compute; lia. Qed.

(** ** Matching at a position and searching *)

Lemma match_here_Some ic r pos s m :
  match_here ic r pos s = Some m ->
  exists st, In st (rmatch ic r (MState pos s [])) /\
             m = ReMatch pos (firstn (m_pos st - pos) s) (m_groups st).
Proof.
  unfold match_here. destruct (rmatch ic r _) as [|st tl]; [discriminate|].
  intros [= <-]. exists st. split; [now left|reflexivity].
Qed.

Lemma match_here_None ic r pos s :
  match_here ic r pos s = None <-> rmatch ic r (MState pos s []) = [].
Proof.
  unfold match_here. destruct (rmatch ic r _); split; congruence.
Qed.

Lemma match_here_In ic r pos s st :
  In st (rmatch ic r (MState pos s [])) ->
  exists m, match_here ic r pos s = Some m.
Proof.
  unfold match_here. destruct (rmatch ic r _) as [|st0 tl]; [intros []|].
  intros _. eauto.
Qed.

(** [re.search] reports the match at the leftmost position that has one. *)
Lemma search_from_Some ic r : forall s pos m,
  search_from ic r pos s = Some m ->
  exists a b, s = a ++ b /\
              match_here ic r (pos + length a) b = Some m /\
              forall a1 b1, s = a1 ++ b1 -> length a1 < length a ->
                            match_here ic r (pos + length a1) b1 = None.
Proof.
  induction s as [|c s IH]; intros pos m; simpl.
  - destruct (match_here ic r pos []) eqn:E; [|discriminate].
    intros [= <-]. exists [], []. simpl. rewrite Nat.add_0_r.
    repeat split; [assumption|]. intros; lia.
  - destruct (match_here ic r pos (c :: s)) eqn:E.
    + intros [= <-]. exists [], (c :: s). simpl. rewrite Nat.add_0_r.
      repeat split; [assumption|]. intros; lia.
    + intros H. apply IH in H as (a & b & -> & Hm & Hleft).
      exists (c :: a), b. simpl. rewrite Nat.add_succ_r.
      repeat split; [assumption|].
      intros [|x a1] b1 E1 L1; simpl in *.
      * subst b1. now rewrite Nat.add_0_r.
      * injection E1 as <- E1. rewrite Nat.add_succ_r.
        apply (Hleft a1 b1 E1). lia.
Qed.

Lemma search_from_None ic r : forall s pos,
  search_from ic r pos s = None <->
  forall a b, s = a ++ b -> match_here ic r (pos + length a) b = None.
Proof.
  induction s as [|c s IH]; intros pos; simpl.
  - destruct (match_here ic r pos []) eqn:E; split; try congruence.
    + intros H. specialize (H [] [] eq_refl). simpl in H.
      rewrite Nat.add_0_r in H. congruence.
    + intros _ a b Hab. symmetry in Hab. apply app_eq_nil in Hab as [-> ->].
      simpl. now rewrite Nat.add_0_r.
  - destruct (match_here ic r pos (c :: s)) eqn:E.
    + split; [discriminate|]. intros H. specialize (H [] (c :: s) eq_refl).
      simpl in H. rewrite Nat.add_0_r in H. congruence.
    + rewrite IH. split.
      * intros H [|x a] b Hab; simpl in *.
        -- subst b. now rewrite Nat.add_0_r.
        -- injection Hab as <- Hab. rewrite Nat.add_succ_r. now apply H.
      * intros H a b Hab. specialize (H (c :: a) b). simpl in H.
        rewrite Nat.add_succ_r in H. apply H. now rewrite Hab.
Qed.

(** ** Character classes *)

Ltac char_facts :=
  unfold is_digit, is_space, is_sp, is_unprintable, not_esc, not_rparen_nl,
    colon_or_digit, is_csi_param, is_ascii_letter, lower_char, in_range,
    NL, ESC, SP in *;
  repeat match goal with
         | H : context [N.leb ?a ?b] |- _ => destruct (N.leb_spec a b)
         | |- context [N.leb ?a ?b] => destruct (N.leb_spec a b)
         | H : context [N.eqb ?a ?b] |- _ => destruct (N.eqb_spec a b)
         | |- context [N.eqb ?a ?b] => destruct (N.eqb_spec a b)
         end;
  simpl in *; try congruence; try lia.

Lemma digit_not_space c : is_digit c = true -> is_space c = false.
Proof.
  intros H. apply not_true_is_false. intros S.
  unfold is_digit, is_space, in_range in *.
  repeat rewrite ?orb_true_iff, ?andb_true_iff, ?N.leb_le, ?N.eqb_eq in *.
  lia.
Qed.

(** ** The percent pattern *)

Lemma in_rmatch_percent pos s st' :
  In st' (rmatch false percent_re (MState pos s [])) <->
  exists d w b, pct_occurrence s [] d w b /\
                st' = MState (pos + length d + length w + 1) b [(1, d)].
Proof.
  unfold percent_re, pct_occurrence. split.
  - intros H. cbn [rmatch] in H. apply in_flat_map in H as (st1 & H1 & H2).
    apply in_map_iff in H1 as (st0 & <- & H0).
    apply in_rmatch_Plus in H0 as (c & run & rest & E & Hc & Hr & ->).
    apply in_flat_map in H2 as (st2 & H2 & H3).
    apply in_star_from in H2 as (w & rest' & E' & Hw & ->).
    apply in_rmatch_Lit in H3 as (x & b & Eb & Hx & ->).
    simpl in *. subst s rest rest'. subst x.
    exists (c :: run), w, b. simpl.
    replace (pos + S (length run) - pos) with (S (length run)) by lia.
    simpl. rewrite firstn_app, Nat.sub_diag, firstn_all. simpl.
    rewrite app_nil_r. unfold holds in Hc. simpl in Hc. rewrite Hc.
    repeat split; try easy. f_equal. lia.
  - intros (d & w & b & (E & Hd & Dd & Dw) & ->). simpl in E. subst s.
    destruct d as [|c run]; [contradiction|]. simpl in Dd.
    apply andb_true_iff in Dd as [Dc Dr].
    cbn [rmatch]. apply in_flat_map.
    exists (MState (pos + S (length run)) (w ++ ch "%" :: b) [(1, c :: run)]).
    split.
    + apply in_map_iff.
      exists (MState (pos + S (length run)) (w ++ ch "%" :: b) []).
      split.
      * simpl. replace (pos + S (length run) - pos) with (S (length run)) by lia.
        simpl. now rewrite firstn_app, Nat.sub_diag, firstn_all, app_nil_r.
      * apply in_rmatch_Plus. exists c, run, (w ++ ch "%" :: b).
        repeat split; assumption.
    + apply in_flat_map.
      exists (MState (pos + S (length run) + length w) (ch "%" :: b)
                     [(1, c :: run)]).
      split.
      * apply in_star_from. exists w, (ch "%" :: b). repeat split. assumption.
      * apply in_rmatch_Lit. exists (ch "%"), b. simpl.
        repeat split. f_equal. lia.
Qed.

Lemma pct_head_not_digit w b c t :
  forallb is_space w = true -> w ++ ch "%" :: b = c :: t ->
  is_digit c = false.
Proof.
  destruct w as [|x w]; simpl; intros Hw E; injection E as <- _.
  - reflexivity.
  - apply andb_true_iff in Hw as [Hx _].
    destruct (is_digit x) eqn:D; [|reflexivity].
    apply digit_not_space in D. congruence.
Qed.

(** At one position the digits of an occurrence are determined. *)
Lemma pct_digits_unique : forall d d' w w' b b',
  d ++ w ++ ch "%" :: b = d' ++ w' ++ ch "%" :: b' ->
  forallb is_digit d = true -> forallb is_digit d' = true ->
  forallb is_space w = true -> forallb is_space w' = true ->
  d = d'.
Proof.
  induction d as [|c d IH]; intros [|c' d'] w w' b b' E Dd Dd' Dw Dw';
    simpl in *.
  - reflexivity.
  - apply andb_true_iff in Dd' as [Dc _].
    rewrite (pct_head_not_digit _ _ Dw E) in Dc. discriminate.
  - apply andb_true_iff in Dd as [Dc _]. symmetry in E.
    rewrite (pct_head_not_digit _ _ Dw' E) in Dc. discriminate.
  - injection E as <- E. apply andb_true_iff in Dd as [_ Dd].
    apply andb_true_iff in Dd' as [_ Dd']. f_equal. eauto.
Qed.

(** [int] converts a string of at most [int_max_str_digits] digits. *)
Lemma int_of_digits d :
  d <> [] -> forallb is_digit d = true ->
  (N.of_nat (length d) <= int_max_str_digits)%N ->
  int_of d = Ret (dec_value d).
Proof.
  intros Hd D L. unfold int_of. destruct d; [contradiction|]. rewrite D.
  apply N.leb_le in L. now rewrite L.
Qed.

(** On a longer string of digits it raises [ValueError]. *)
Lemma int_of_long d :
  (int_max_str_digits < N.of_nat (length d))%N ->
  int_of d = Raise ValueError.
Proof.
  intros L. unfold int_of. destruct d; [reflexivity|].
  destruct (forallb is_digit (c :: d)); [|reflexivity].
  apply N.leb_gt in L. now rewrite L.
Qed.

Lemma int_of_Ret d v :
  int_of d = Ret v ->
  v = dec_value d /\ (N.of_nat (length d) <= int_max_str_digits)%N.
Proof.
  unfold int_of. destruct d; [discriminate|].
  destruct (forallb is_digit (c :: d)); [|discriminate].
  destruct (N.leb_spec (N.of_nat (length (c :: d))) int_max_str_digits);
    [|discriminate].
  intros [= <-]. now split.
Qed.

Lemma int_of_Raise d e : int_of d = Raise e -> e = ValueError.
Proof.
  unfold int_of. destruct d; [now intros [= <-]|].
  destruct (forallb is_digit (c :: d)); [|now intros [= <-]].
  destruct (N.leb _ _); [discriminate|now intros [= <-]].
Qed.

Lemma percent_here pos s m :
  match_here false percent_re pos s = Some m ->
  exists d w b, pct_occurrence s [] d w b /\ mt_groups m = [(1, d)].
Proof.
  intros H. apply match_here_Some in H as (st & Hin & ->).
  apply in_rmatch_percent in Hin as (d & w & b & Hocc & ->).
  now exists d, w, b.
Qed.

Lemma percent_here_complete pos s d w b :
  pct_occurrence s [] d w b ->
  exists m, match_here false percent_re pos s = Some m /\
            mt_groups m = [(1, d)].
Proof.
  intros Hocc.
  assert (Hin : In (MState (pos + length d + length w + 1) b [(1, d)])
                   (rmatch false percent_re (MState pos s []))).
  { apply in_rmatch_percent. now exists d, w, b. }
  apply match_here_In in Hin as [m Hm]. exists m. split; [assumption|].
  destruct (percent_here _ _ Hm) as (d' & w' & b' & Hocc' & ->).
  destruct Hocc as (E & _ & Dd & Dw). destruct Hocc' as (E' & _ & Dd' & Dw').
  simpl in E, E'. rewrite E in E'.
  now rewrite (pct_digits_unique _ _ _ _ _ _ E' Dd Dd' Dw Dw').
Qed.

Lemma pct_occurrence_shift l a d w b :
  pct_occurrence l a d w b <->
  exists s, l = a ++ s /\ pct_occurrence s [] d w b.
Proof.
  unfold pct_occurrence. split.
  - intros (E & H). exists (d ++ w ++ ch "%" :: b). now split.
  - intros (s & -> & E & H). simpl in E. now subst s.
Qed.

(** What [re.search] with the percent pattern reports is the leftmost
    occurrence on the line. *)
Lemma percent_search_Some l m :
  re_search false percent_re l = Some m ->
  exists a d w b,
    pct_occurrence l a d w b /\
    (forall a' d' w' b', pct_occurrence l a' d' w' b' ->
                         length a <= length a') /\
    mt_groups m = [(1, d)].
Proof.
  intros E. apply search_from_Some in E as (a & s & -> & Hm & Hmin).
  simpl in Hm, Hmin.
  destruct (percent_here _ _ Hm) as (d & w & b & Hocc & Hg).
  exists a, d, w, b. split; [|split].
  - apply pct_occurrence_shift. eauto.
  - intros a' d' w' b' Hocc'.
    destruct (Nat.le_gt_cases (length a) (length a')) as [L|L]; [exact L|].
    apply pct_occurrence_shift in Hocc' as (s' & E' & Hocc').
    destruct (percent_here_complete (length a') Hocc') as (m' & Hm' & _).
    rewrite (Hmin a' s' E' L) in Hm'. discriminate.
  - exact Hg.
Qed.

Lemma percent_search_None l :
  re_search false percent_re l = None <->
  forall a d w b, ~ pct_occurrence l a d w b.
Proof.
  unfold re_search. rewrite search_from_None. split.
  - intros H a d w b Hocc.
    apply pct_occurrence_shift in Hocc as (s & -> & Hocc).
    destruct (percent_here_complete (length a) Hocc) as (m & Hm & _).
    specialize (H a s eq_refl). simpl in H. congruence.
  - intros H a s ->. simpl.
    destruct (match_here false percent_re (length a) s) as [m|] eqn:E;
      [|reflexivity].
    apply percent_here in E as (d & w & b & Hocc & _).
    exfalso. apply (H a d w b). apply pct_occurrence_shift. eauto.
Qed.

(** Two leftmost occurrences on a line have the same digits. *)
Lemma leftmost_digits_unique l a d w b a' d' w' b' :
  pct_occurrence l a d w b ->
  (forall x y z t, pct_occurrence l x y z t -> length a <= length x) ->
  pct_occurrence l a' d' w' b' ->
  (forall x y z t, pct_occurrence l x y z t -> length a' <= length x) ->
  d = d'.
Proof.
  intros Ho Hl Ho' Hl'.
  pose proof (Hl _ _ _ _ Ho') as L1. pose proof (Hl' _ _ _ _ Ho) as L2.
  destruct Ho as (E & _ & D & W), Ho' as (E' & _ & D' & W').
  rewrite E in E'.
  destruct (app_same_length _ _ _ _ E') as [<- E2]; [lia|].
  exact (pct_digits_unique _ _ _ _ _ _ E2 D D' W W').
Qed.

(** On a line with an occurrence, [percent_at] converts the digits of the
    leftmost one. *)
Lemma percent_at_leftmost l a d w b :
  pct_occurrence l a d w b ->
  (forall a' d' w' b', pct_occurrence l a' d' w' b' ->
                       length a <= length a') ->
  percent_at l = (v <- int_of d ;; Ret (Some v)).
Proof.
  intros Hocc Hleft. unfold percent_at.
  destruct (re_search false percent_re l) as [m|] eqn:E.
  - apply percent_search_Some in E as (a' & d' & w' & b' & Ho' & Hl' & Hg).
    rewrite (leftmost_digits_unique Hocc Hleft Ho' Hl').
    unfold group. rewrite Hg. reflexivity.
  - exfalso. rewrite percent_search_None in E. exact (E _ _ _ _ Hocc).
Qed.

(** [percent_at] finds nothing exactly when the line has no occurrence. *)
Lemma percent_at_None l :
  percent_at l = Ret None <-> forall a d w b, ~ pct_occurrence l a d w b.
Proof.
  rewrite <- percent_search_None. unfold percent_at.
  destruct (re_search false percent_re l) as [m|] eqn:E.
  - split; [|discriminate].
    apply percent_search_Some in E as (a & d & w & b & _ & _ & Hg).
    unfold group. rewrite Hg. simpl.
    destruct (int_of d); discriminate.
  - split; reflexivity.
Qed.

(** Either the line has no occurrence, or it has a leftmost one, whose
    digits [percent_at] converts. *)
Lemma percent_at_cases l :
  percent_at l = Ret None \/
  exists a d w b,
    pct_occurrence l a d w b /\
    (forall a' d' w' b', pct_occurrence l a' d' w' b' ->
                         length a <= length a') /\
    percent_at l = (v <- int_of d ;; Ret (Some v)).
Proof.
  destruct (re_search false percent_re l) as [m|] eqn:E.
  - right. apply percent_search_Some in E as (a & d & w & b & Ho & Hl & _).
    exists a, d, w, b. split; [assumption|]. split; [assumption|].
    now apply (percent_at_leftmost Ho).
  - left. unfold percent_at. now rewrite E.
Qed.

(** [percent_at] yields the value of the digits of the leftmost occurrence,
    when they are not too many. *)
Lemma percent_at_first l a d w b :
  pct_occurrence l a d w b ->
  (forall a' d' w' b', pct_occurrence l a' d' w' b' ->
                       length a <= length a') ->
  (N.of_nat (length d) <= int_max_str_digits)%N ->
  percent_at l = Ret (Some (dec_value d)).
Proof.
  intros Hocc Hleft L. rewrite (percent_at_leftmost Hocc Hleft).
  destruct Hocc as (_ & Hd & D & _). now rewrite (int_of_digits Hd D L).
Qed.

(** With more digits than [int] converts it raises [ValueError]. *)
Lemma percent_at_long l a d w b :
  pct_occurrence l a d w b ->
  (forall a' d' w' b', pct_occurrence l a' d' w' b' ->
                       length a <= length a') ->
  (int_max_str_digits < N.of_nat (length d))%N ->
  percent_at l = Raise ValueError.
Proof.
  intros Hocc Hleft L. rewrite (percent_at_leftmost Hocc Hleft).
  now rewrite (int_of_long _ L).
Qed.

(** A value [percent_at] yields is the value of the digits of an occurrence
    on the line. *)
Lemma percent_at_Some l v :
  percent_at l = Ret (Some v) ->
  exists a d w b, pct_occurrence l a d w b /\ v = dec_value d.
Proof.
  intros H. destruct (percent_at_cases l) as [N|(a & d & w & b & Ho & _ & E)].
  - congruence.
  - rewrite E in H. destruct (int_of d) as [x|] eqn:I; [|discriminate].
    simpl in H. injection H as <-. apply int_of_Ret in I as [-> _].
    now exists a, d, w, b.
Qed.

(** [percent_at] returns exactly on the lines that are [pct_convertible]. *)
Lemma percent_at_Ret_convertible l o :
  percent_at l = Ret o -> pct_convertible l.
Proof.
  intros H a d w b Ho Hl. rewrite (percent_at_leftmost Ho Hl) in H.
  destruct (int_of d) as [x|] eqn:I; [|discriminate].
  now apply int_of_Ret in I.
Qed.

Lemma percent_at_convertible l :
  pct_convertible l -> exists o, percent_at l = Ret o.
Proof.
  intros H. destruct (percent_at_cases l) as [N|(a & d & w & b & Ho & Hl & E)].
  - eauto.
  - rewrite (percent_at_first Ho Hl (H _ _ _ _ Ho Hl)). eauto.
Qed.

(** The only exception of [percent_at] is [ValueError]. *)
Lemma percent_at_Raise l e : percent_at l = Raise e -> e = ValueError.
Proof.
  intros H. destruct (percent_at_cases l) as [N|(a & d & w & b & _ & _ & E)].
  - congruence.
  - rewrite E in H. destruct (int_of d) as [x|e'] eqn:I; [discriminate|].
    simpl in H. injection H as <-. now apply int_of_Raise in I.
Qed.

(** A line of at most [int_max_str_digits] characters and one more is
    [pct_convertible]. *)
Lemma short_line_convertible l :
  (N.of_nat (length l) <= int_max_str_digits + 1)%N -> pct_convertible l.
Proof.
  intros L a d w b (E & _) _. rewrite E, !length_app in L.
  cbn [length] in L. unfold int_max_str_digits in *. lia.
Qed.

(** ** Substitution *)

(** The output of a substitution is made of characters of the subject and of
    the replacement. *)
Lemma sub_from_Forall (P : char -> Prop) ic r repl : forall s pos skip,
  Forall P repl -> Forall P s -> Forall P (sub_from ic r repl pos skip s).
Proof.
  induction s as [|c s IH]; intros pos skip Hr Hs; simpl; [constructor|].
  inversion Hs; subst.
  destruct skip; [|now apply IH].
  destruct (match_here ic r pos (c :: s)) as [m|].
  - destruct (length (mt_text m)).
    + constructor; [assumption|now apply IH].
    + apply Forall_app. split; [assumption|now apply IH].
  - constructor; [assumption|now apply IH].
Qed.

(** A pattern that starts with a literal character has no match in a subject
    without that character. *)
Lemma match_here_lit_miss l r pos s :
  Forall (fun c => c <> l) s ->
  match_here false (Cat (Lit l) r) pos s = None.
Proof.
  intros H. apply match_here_None. cbn [rmatch]. unfold advance. simpl.
  destruct s as [|c s]; [reflexivity|]. inversion H; subst.
  now destruct (N.eqb_spec c l).
Qed.

Lemma sub_from_lit_miss l r repl : forall s pos,
  Forall (fun c => c <> l) s ->
  sub_from false (Cat (Lit l) r) repl pos 0 s = s.
Proof.
  induction s as [|c s IH]; intros pos H; simpl; [reflexivity|].
  rewrite (match_here_lit_miss r pos H). inversion H; subst.
  now rewrite IH.
Qed.

(** Substituting one character for each character of a class is a map. *)
Lemma sub_from_Cls p x : forall s pos,
  sub_from false (Cls p) [x] pos 0 s = map (fun c => if p c then x else c) s.
Proof.
  induction s as [|c s IH]; intros pos; simpl; [reflexivity|].
  unfold match_here. cbn [rmatch]. unfold advance. cbn -[Nat.sub firstn].
  destruct (p c); cbn -[Nat.sub firstn].
  - replace (S pos - pos) with 1 by lia. simpl. now rewrite IH.
  - now rewrite IH.
Qed.

Lemma run_length_le ic p s : run_length ic p s <= length s.
Proof.
  induction s as [|c s IH]; simpl; [lia|]. destruct (holds ic p c); lia.
Qed.

Lemma sub_from_spaces : forall s pos,
  sub_from false spaces_re [SP] pos (run_length false is_sp s) s
    = squeeze true s /\
  sub_from false spaces_re [SP] pos 0 s = squeeze false s.
Proof.
  unfold spaces_re.
  induction s as [|c s IH]; intros pos; [now split|].
  assert (H0 : sub_from false (Plus is_sp) [SP] pos 0 (c :: s)
               = squeeze false (c :: s)).
  { simpl. unfold match_here. cbn [rmatch]. unfold advance.
    cbn -[Nat.sub firstn]. destruct (is_sp c) eqn:Hc.
    - destruct (star_from_head false is_sp (S pos) s []) as [tl ->].
      cbn -[Nat.sub firstn].
      replace (S (pos + run_length false is_sp s) - pos)
        with (S (run_length false is_sp s)) by lia.
      simpl. rewrite length_firstn, Nat.min_l by apply run_length_le.
      now rewrite (proj1 (IH (S pos))).
    - now rewrite (proj2 (IH (S pos))). }
  split; [|exact H0].
  simpl run_length. unfold holds. simpl fold_case.
  destruct (is_sp c) eqn:Hc.
  - simpl. rewrite Hc. apply IH.
  - rewrite H0. simpl. now rewrite Hc.
Qed.

Lemma re_sub_spaces s : re_sub false spaces_re [SP] s = squeeze false s.
Proof. apply sub_from_spaces. Qed.

(** [clean] is the escape-stripped text with unprintable characters turned
    into spaces and runs of spaces collapsed. *)
Lemma clean_text_eq text :
  clean_text text = squeeze false (map printable (strip_escapes text)).
Proof.
  unfold clean_text, re_sub at 2, unprintable_re.
  now rewrite sub_from_Cls, re_sub_spaces.
Qed.

Lemma strip_escapes_noesc s :
  Forall (fun c => c <> ESC) s -> strip_escapes s = s.
Proof.
  intros H. unfold strip_escapes, re_sub, csi_re, osc_re.
  rewrite (sub_from_lit_miss _ [] 0 H). apply (sub_from_lit_miss _ [] 0 H).
Qed.

Lemma printable_clean c : is_clean_char (printable c) = true.
Proof.
  unfold printable, is_unprintable, is_clean_char.
  destruct (in_range 32 126 c || N.eqb c NL)%bool eqn:E; simpl; [exact E|].
  reflexivity.
Qed.

Lemma squeeze_Forall (P : char -> Prop) : forall s b,
  P SP -> Forall P s -> Forall P (squeeze b s).
Proof.
  induction s as [|c s IH]; intros b HP H; simpl; [constructor|].
  inversion H; subst. destruct (is_sp c), b; auto.
Qed.

(** Every character of [clean] is printable ASCII or a newline. *)
Lemma clean_text_chars text :
  Forall (fun c => is_clean_char c = true) (clean_text text).
Proof.
  rewrite clean_text_eq. apply squeeze_Forall; [reflexivity|].
  apply Forall_forall. intros c Hc. apply in_map_iff in Hc as (x & <- & _).
  apply printable_clean.
Qed.

Lemma squeeze_single_spaced : forall s b,
  single_spaced (squeeze b s) = true /\
  head_is_sp (squeeze true s) = false.
Proof.
  induction s as [|c s IH]; intros b; simpl; [now split|].
  destruct (is_sp c) eqn:Hc.
  - destruct (IH true) as [H1 H2]. split; [|assumption].
    destruct b; [assumption|]. simpl. now rewrite H2, H1.
  - simpl. rewrite Hc. simpl. split; [|reflexivity]. apply IH.
Qed.

Lemma single_spaced_spec s :
  single_spaced s = true <-> forall a b, s <> a ++ SP :: SP :: b.
Proof.
  induction s as [|c s IH]; simpl.
  - split; [|reflexivity]. intros _ [|x a] b; discriminate.
  - rewrite andb_true_iff, IH, negb_true_iff. split.
    + intros [H1 H2] [|x a] b E.
      * injection E as -> ->. discriminate.
      * injection E as _ E. now apply H2 in E.
    + intros H. split.
      * destruct (is_sp c) eqn:Hc; [|reflexivity].
        destruct s as [|d s]; [reflexivity|]. simpl.
        destruct (is_sp d) eqn:Hd; [|reflexivity].
        apply N.eqb_eq in Hc, Hd. subst. exfalso. now apply (H [] s).
      * intros a b E. apply (H (c :: a) b). now rewrite E.
Qed.

Lemma single_spaced_skipn : forall n s,
  single_spaced s = true -> single_spaced (skipn n s) = true.
Proof.
  induction n as [|n IH]; intros [|c s] H; simpl; try assumption.
  apply IH. simpl in H. now apply andb_true_iff in H as [_ H].
Qed.

Lemma squeeze_app_nl : forall x y b,
  squeeze b (x ++ NL :: y) = squeeze b x ++ NL :: squeeze false y.
Proof.
  induction x as [|c x IH]; intros y b; simpl; [reflexivity|].
  destruct (is_sp c), b; simpl; now rewrite IH.
Qed.

(** ** Scanning a window of lines *)

Section Scan.

Context {A : Type} (f : str -> outcome (option A)).
Hypothesis f_total : forall l, exists o, f l = Ret o.

Lemma scan_total lines js :
  (forall j, In j js -> j < length lines) ->
  exists o, scan f lines js = Ret o.
Proof.
  induction js as [|j js IH]; intros H; simpl; [eauto|].
  assert (Hj : j < length lines) by (apply H; now left).
  unfold index. destruct (nth_error lines j) as [l|] eqn:E.
  - simpl. destruct (f_total l) as [[a|] ->]; simpl; [eauto|].
    apply IH. intros j' Hj'. apply H. now right.
  - apply nth_error_None in E. lia.
Qed.

(** An exception of a scan inside the list is an exception of [f]. *)
Lemma scan_Raise lines js e :
  (forall j, In j js -> j < length lines) ->
  scan f lines js = Raise e -> exists l, f l = Raise e.
Proof.
  induction js as [|j js IH]; intros H; simpl; [discriminate|].
  unfold index. destruct (nth_error lines j) as [l|] eqn:E.
  - simpl. destruct (f l) as [[a|]|e'] eqn:F; simpl.
    + discriminate.
    + apply IH. intros j' Hj'. apply H. now right.
    + intros [= <-]. now exists l.
  - apply nth_error_None in E. specialize (H j (or_introl eq_refl)). lia.
Qed.

(** A scan returns when [f] returns on the first line with a match, or on
    every line when no line has one; the lines after the first match are
    not visited. *)
Lemma scan_total_first lines : forall js,
  (forall j, In j js -> j < length lines) ->
  (forall pre j post l,
      js = pre ++ j :: post -> nth_error lines j = Some l ->
      (forall j' l', In j' pre -> nth_error lines j' = Some l' ->
                     f l' = Ret None) ->
      exists o, f l = Ret o) ->
  exists o, scan f lines js = Ret o.
Proof.
  induction js as [|j js IH]; intros Hlen H; simpl; [eauto|].
  assert (Hj : j < length lines) by (apply Hlen; now left).
  unfold index. destruct (nth_error lines j) as [l|] eqn:E;
    [|apply nth_error_None in E; lia].
  simpl. destruct (H [] j js l eq_refl E) as [o Ho]; [intros j' l' []|].
  rewrite Ho. simpl. destruct o as [a|]; [eauto|].
  apply IH; [intros j' Hj'; apply Hlen; now right|].
  intros pre j' post l' -> El' Hpre.
  apply (H (j :: pre) j' post l' eq_refl El').
  intros j2 l2 [<-|Hin] E2; [congruence|eauto].
Qed.

(** A scan that returns has visited the first line with a match, or every
    line, and [f] has returned there. *)
Lemma scan_Ret_first lines : forall pre j post l o,
  scan f lines (pre ++ j :: post) = Ret o ->
  nth_error lines j = Some l ->
  (forall j' l', In j' pre -> nth_error lines j' = Some l' ->
                 f l' = Ret None) ->
  exists o', f l = Ret o'.
Proof.
  induction pre as [|j0 pre IH]; intros j post l o; simpl; unfold index.
  - intros H E _. rewrite E in H. simpl in H.
    destruct (f l) as [o'|e]; [eauto|discriminate].
  - intros H E Hpre.
    destruct (nth_error lines j0) as [l0|] eqn:E0; [|discriminate].
    simpl in H. rewrite (Hpre j0 l0 (or_introl eq_refl) E0) in H.
    simpl in H. apply (IH _ _ _ _ H E).
    intros j' l' Hin. apply Hpre. now right.
Qed.

(** The scan stops at the first line of the window that has a match. *)
Lemma scan_first lines js1 j js2 l v :
  (forall j', In j' js1 ->
              exists l', nth_error lines j' = Some l' /\ f l' = Ret None) ->
  nth_error lines j = Some l -> f l = Ret (Some v) ->
  scan f lines (js1 ++ j :: js2) = Ret (Some v).
Proof.
  intros H1 Hj Hv. induction js1 as [|j1 js1 IH]; simpl.
  - unfold index. now rewrite Hj; simpl; rewrite Hv.
  - destruct (H1 j1 (or_introl eq_refl)) as (l' & E & N).
    unfold index. rewrite E. simpl. rewrite N. simpl.
    apply IH. intros j' Hj'. apply H1. now right.
Qed.


(** What a scan yields was found on one of the lines it visited. *)
Lemma scan_Some lines js v :
  scan f lines js = Ret (Some v) ->
  exists j l, In j js /\ nth_error lines j = Some l /\ f l = Ret (Some v).
Proof.
  induction js as [|j js IH]; simpl; [discriminate|].
  unfold index. destruct (nth_error lines j) as [l|] eqn:E; [|discriminate].
  simpl. destruct (f l) as [[a|]|] eqn:F; simpl.
  - intros [= <-]. exists j, l. auto.
  - intros H. destruct (IH H) as (j' & l' & Hin & H'). exists j', l'. auto.
  - discriminate.
Qed.

Lemma in_range_iff lo hi j : In j (range lo hi) <-> lo <= j < hi.
Proof. unfold range. rewrite in_seq. lia. Qed.

Lemma seq_split : forall pre a n (j : nat) post,
  seq a n = pre ++ j :: post -> pre = seq a (j - a) /\ a <= j.
Proof.
  induction pre as [|x pre IH]; intros a n j post H.
  - destruct n as [|n]; [discriminate|]. simpl in H.
    injection H as <- _. now rewrite Nat.sub_diag.
  - destruct n as [|n]; [discriminate|]. simpl in H.
    injection H as <- H. apply IH in H as [-> Hle].
    split; [|lia]. replace (j - a) with (S (j - S a)) by lia. reflexivity.
Qed.

Lemma range_at lo hi j :
  lo <= j < hi -> range lo hi = range lo j ++ j :: range (S j) hi.
Proof.
  intros H. unfold range.
  replace (hi - lo) with ((j - lo) + S (hi - S j)) by lia.
  rewrite seq_app. simpl. now replace (lo + (j - lo)) with j by lia.
Qed.

Lemma scan_range_total lines i k :
  exists o, scan f lines (range i (Nat.min (i + k) (length lines))) = Ret o.
Proof. apply scan_total. intros j Hj. apply in_range_iff in Hj. lia. Qed.

Lemma hit_not_header hdr k lines i li :
  nth_error lines i = Some li -> hdr (lower (strip li)) = false ->
  hit f hdr k lines i = None.
Proof. intros E H. unfold hit. now rewrite E, H. Qed.

Lemma hit_Some hdr k lines i v :
  hit f hdr k lines i = Some v ->
  exists j l, i <= j < i + k /\ nth_error lines j = Some l /\
              f l = Ret (Some v).
Proof.
  unfold hit. destruct (nth_error lines i) as [li|]; [|discriminate].
  destruct (hdr _); [|discriminate].
  destruct (scan f lines _) as [m|] eqn:E; [|discriminate].
  intros ->. apply scan_Some in E as (j & l & Hin & H).
  apply in_range_iff in Hin. exists j, l. split; [lia|assumption].
Qed.

(** The window of a header line, as a list: the header line and the lines
    after it. *)
Lemma hit_window_first hdr k pre hd rest n l v :
  hdr (lower (strip hd)) = true ->
  n < k -> nth_error (hd :: rest) n = Some l -> f l = Ret (Some v) ->
  (forall n' l', n' < n -> nth_error (hd :: rest) n' = Some l' ->
                 f l' = Ret None) ->
  hit f hdr k (pre ++ hd :: rest) (length pre) = Some v.
Proof.
  intros Hh Hn Hl Hv Hbefore. unfold hit.
  rewrite nth_error_app2, Nat.sub_diag by lia. cbn [nth_error]. cbv iota.
  rewrite Hh.
  assert (Hlen : n < length (hd :: rest)).
  { apply nth_error_Some. congruence. }
  set (lines := pre ++ hd :: rest).
  assert (Hr : range (length pre) (Nat.min (length pre + k) (length lines))
               = seq (length pre) n ++ (length pre + n)
                   :: seq (S (length pre + n))
                        (Nat.min (length pre + k) (length lines)
                         - length pre - S n)).
  { unfold range, lines. rewrite length_app.
    set (m := Nat.min _ _ - length pre).
    assert (Hm : m = n + S (m - S n)) by (unfold m; lia).
    rewrite Hm at 1. rewrite seq_app. reflexivity. }
  rewrite Hr.
  erewrite scan_first; [reflexivity| |
    unfold lines; rewrite nth_error_app2 by lia;
    replace (length pre + n - length pre) with n by lia; exact Hl|exact Hv].
  intros j' Hj'. apply in_seq in Hj'.
  destruct (nth_error (hd :: rest) (j' - length pre)) as [l'|] eqn:E.
  - exists l'. split.
    + unfold lines. now rewrite nth_error_app2 by lia.
    + apply (Hbefore (j' - length pre)); [lia|assumption].
  - apply nth_error_None in E. lia.
Qed.

End Scan.

(** ** The reset patterns *)

Lemma accepts_only_True ic r : accepts_only ic (fun _ => True) r.
Proof. induction r; simpl; auto. Qed.

Ltac not_rparen_class :=
  let c := fresh "c" in let H := fresh "H" in
  intros c H; unfold not_rparen; intros ->; vm_compute in H; discriminate H.

Lemma session_group_accepts :
  accepts_only true not_rparen
    (Plus is_digit ~ Star colon_or_digit ~ Star is_space ~
     Cls (one_of "ap") ~ Lit (ch "m") ~ Star not_rparen_nl)%re.
Proof. simpl. repeat split; not_rparen_class. Qed.

Lemma weekly_reset_accepts : accepts_only true not_rparen weekly_reset_re.
Proof.
  unfold weekly_reset_re, month_re, lits. simpl.
  repeat split; not_rparen_class.
Qed.

(** A match of the session reset pattern has a group 1; its text has no
    closing parenthesis and lies inside the subject. *)
Lemma session_reset_groups pos s st :
  In st (rmatch true session_reset_re (MState pos s [])) ->
  exists u w v, s = u ++ w ++ v /\ Forall not_rparen w /\
                assoc 1 (m_groups st) = Some w.
Proof.
  unfold session_reset_re. intros H.
  apply in_rmatch_Cat in H as (st1 & H1 & H).
  apply in_rmatch_Cat in H as (st2 & H2 & H).
  apply in_rmatch_Cat in H as (st3 & H3 & H).
  pose proof (fun r x y =>
                rmatch_consumes true _ r x y (accepts_only_True true r))
    as any.
  destruct (any _ _ _ H1) as (w1 & E1 & _).
  destruct (any _ _ _ H2) as (w2 & E2 & _).
  destruct (any _ _ _ H3) as (w3 & E3 & _).
  destruct (in_rmatch_Grp true not_rparen 1 _ _ _ session_group_accepts H)
    as (w & g & E & _ & F & _ & G).
  simpl in E1. exists (w1 ++ w2 ++ w3), w, (m_rest st).
  rewrite G. simpl. repeat split; [|assumption].
  now rewrite E1, E2, E3, E, <- !app_assoc.
Qed.

Lemma session_reset_at_spec l :
  exists o, session_reset_at l = Ret o /\
            forall v, o = Some v ->
                      Forall not_rparen v /\
                      forall Q : char -> Prop, Forall Q l -> Forall Q v.
Proof.
  unfold session_reset_at.
  destruct (re_search true session_reset_re l) as [m|] eqn:E.
  - apply search_from_Some in E as (a & b & -> & Hm & _).
    apply match_here_Some in Hm as (st & Hin & ->).
    apply session_reset_groups in Hin as (u & w & v & -> & F & G).
    unfold group. simpl. rewrite G. simpl. eexists. split; [reflexivity|].
    intros x [= <-]. split.
    + now apply Forall_strip.
    + intros Q HQ. apply Forall_strip.
      apply Forall_app in HQ as [_ HQ]. apply Forall_app in HQ as [_ HQ].
      now apply Forall_app in HQ as [HQ _].
  - exists None. split; [reflexivity|discriminate].
Qed.

Lemma weekly_reset_at_spec l :
  exists o, weekly_reset_at l = Ret o /\
            forall v, o = Some v ->
                      Forall not_rparen v /\
                      forall Q : char -> Prop, Forall Q l -> Forall Q v.
Proof.
  unfold weekly_reset_at.
  destruct (re_search true weekly_reset_re l) as [m|] eqn:E.
  - apply search_from_Some in E as (a & b & -> & Hm & _).
    apply match_here_Some in Hm as (st & Hin & ->).
    destruct (rmatch_consumes true not_rparen _ _ _ weekly_reset_accepts Hin)
      as (w & Ew & Lw & Fw).
    cbn [m_pos m_rest] in Ew, Lw. cbn [mt_text]. rewrite Lw, Ew.
    replace (0 + length a + length w - (0 + length a)) with (length w) by lia.
    rewrite firstn_app, Nat.sub_diag, firstn_all, app_nil_r.
    eexists. split; [reflexivity|]. intros x [= <-]. split.
    + apply Forall_strip. apply sub_from_Forall; [constructor|assumption].
    + intros Q HQ. apply Forall_strip.
      apply sub_from_Forall; [constructor|].
      apply Forall_app in HQ as [_ HQ]. now apply Forall_app in HQ as [HQ _].
  - exists None. split; [reflexivity|discriminate].
Qed.

Lemma session_reset_at_total l : exists o, session_reset_at l = Ret o.
Proof. destruct (session_reset_at_spec l) as (o & H & _). eauto. Qed.

Lemma weekly_reset_at_total l : exists o, weekly_reset_at l = Ret o.
Proof. destruct (weekly_reset_at_spec l) as (o & H & _). eauto. Qed.

(** ** The loop *)

(** The percent scan at a header line of a [convertible] list returns. *)
Lemma percent_scan_total lines i li :
  nth_error lines i = Some li ->
  is_any_header (lower (strip li)) = true -> convertible lines ->
  exists o,
    scan percent_at lines (range i (Nat.min (i + 3) (length lines))) = Ret o.
Proof.
  intros E HA HC. apply scan_total_first.
  - intros j Hj. apply in_range_iff in Hj. lia.
  - intros pre j post l Hr El Hpre. apply percent_at_convertible.
    assert (Hj : In j (range i (Nat.min (i + 3) (length lines))))
      by (rewrite Hr; apply in_or_app; right; now left).
    apply in_range_iff in Hj.
    apply (HC i li j l E HA); [lia|assumption|].
    intros j' l' Hj' El'. apply percent_at_None.
    apply (Hpre j' l'); [|assumption].
    unfold range in Hr. apply seq_split in Hr as [-> _].
    apply in_seq. lia.
Qed.

(** Conversely, where the percent scans of the header lines return, the
    list is [convertible]. *)
Lemma percent_scans_convertible lines :
  (forall i li, nth_error lines i = Some li ->
                is_any_header (lower (strip li)) = true ->
                exists o, scan percent_at lines
                            (range i (Nat.min (i + 3) (length lines)))
                          = Ret o) ->
  convertible lines.
Proof.
  intros H i li j l E HA Hj El Hbefore.
  destruct (H i li E HA) as [o Ho].
  assert (Hjl : j < length lines) by (apply nth_error_Some; congruence).
  rewrite (@range_at i (Nat.min (i + 3) (length lines)) j) in Ho by lia.
  destruct (scan_Ret_first percent_at lines _ _ _ Ho El) as [o' Ho'].
  - intros j' l' Hin El'. apply in_range_iff in Hin.
    apply percent_at_None. now apply (Hbefore j' l').
  - apply (percent_at_Ret_convertible Ho').
Qed.

(** An iteration inside a [convertible] list does not raise. *)
Lemma step_eq lines i r :
  i < length lines -> convertible lines ->
  step lines i r = Ret (apply_hits lines i r).
Proof.
  intros Hi HC. unfold step, apply_hits, hit, index.
  destruct (nth_error lines i) as [li|] eqn:E;
    [|apply nth_error_None in E; lia].
  simpl.
  destruct (scan_range_total session_reset_at session_reset_at_total lines i 3)
    as [sr Hsr].
  destruct (scan_range_total weekly_reset_at weekly_reset_at_total lines i 5)
    as [wr Hwr].
  rewrite Hsr, Hwr.
  destruct (is_any_header (lower (strip li))) eqn:HA.
  - destruct (percent_scan_total _ E HA HC) as [p Hp]. rewrite Hp.
    destruct (is_session_header _), (is_weekly_header _),
      (is_sonnet_header _); reflexivity.
  - unfold is_any_header in HA.
    apply orb_false_iff in HA as [HA H3].
    apply orb_false_iff in HA as [H1 H2].
    rewrite H1, H2, H3. reflexivity.
Qed.

Lemma loop_eq lines : forall todo r,
  (forall i, In i todo -> i < length lines) -> convertible lines ->
  loop lines todo r = Ret (fold_left (fun r i => apply_hits lines i r) todo r).
Proof.
  induction todo as [|i todo IH]; intros r H HC; simpl; [reflexivity|].
  rewrite step_eq by (try assumption; apply H; now left). simpl.
  apply IH; [|assumption]. intros j Hj. apply H. now right.
Qed.

(** On a text whose cleaned lines are [convertible], [parse_usage] returns
    the record the iterations build, one after the other, from the initial
    record with [raw] set. *)
Lemma parse_usage_eq text :
  convertible (clean_lines text) ->
  parse_usage text =
  Ret (fold_left (fun r i => apply_hits (clean_lines text) i r)
         (range 0 (length (clean_lines text)))
         (set_raw (slice_from (-1000) (clean_text text)) initial)).
Proof.
  intros HC. unfold parse_usage. apply loop_eq; [|exact HC].
  intros i Hi. apply in_range_iff in Hi. lia.
Qed.

(** An iteration that returns has done what [apply_hits] says. *)
Lemma step_Ret lines i r r' :
  step lines i r = Ret r' -> r' = apply_hits lines i r.
Proof.
  unfold step, apply_hits, hit, index.
  destruct (nth_error lines i) as [li|]; [|discriminate].
  simpl.
  destruct (scan percent_at lines _) as [p|ep];
    destruct (scan session_reset_at lines _) as [sr|esr];
    destruct (scan weekly_reset_at lines _) as [wr|ewr];
    destruct (is_session_header _), (is_weekly_header _),
      (is_sonnet_header _); simpl;
    intros H; try discriminate H; now injection H as <-.
Qed.

Lemma loop_Ret lines : forall todo r r',
  loop lines todo r = Ret r' ->
  r' = fold_left (fun r i => apply_hits lines i r) todo r.
Proof.
  induction todo as [|i todo IH]; intros r r'; simpl.
  - now intros [= <-].
  - destruct (step lines i r) as [r1|e] eqn:E; simpl; [|discriminate].
    apply step_Ret in E. subst r1. apply IH.
Qed.

(** Whenever [parse_usage] returns, it returns the record the iterations
    build. *)
Lemma parse_usage_Ret text r :
  parse_usage text = Ret r ->
  r = fold_left (fun r i => apply_hits (clean_lines text) i r)
        (range 0 (length (clean_lines text)))
        (set_raw (slice_from (-1000) (clean_text text)) initial).
Proof. unfold parse_usage. apply loop_Ret. Qed.

(** An iteration that returns at a header line has run a percent scan that
    returned. *)
Lemma step_Ret_scan lines i r r' li :
  step lines i r = Ret r' -> nth_error lines i = Some li ->
  is_any_header (lower (strip li)) = true ->
  exists o,
    scan percent_at lines (range i (Nat.min (i + 3) (length lines))) = Ret o.
Proof.
  unfold step, index, is_any_header. intros H E HA. rewrite E in H.
  simpl in H.
  destruct (scan percent_at lines _) as [p|ep]; [eauto|].
  destruct (scan session_reset_at lines _) as [sr|esr];
    destruct (scan weekly_reset_at lines _) as [wr|ewr];
    destruct (is_session_header _), (is_weekly_header _),
      (is_sonnet_header _); simpl in H; discriminate.
Qed.

Lemma loop_Ret_steps lines : forall todo r r',
  loop lines todo r = Ret r' ->
  forall i, In i todo -> exists r0 r1, step lines i r0 = Ret r1.
Proof.
  induction todo as [|i todo IH]; intros r r' H j Hj; [destruct Hj|].
  simpl in H. destruct (step lines i r) as [r1|e] eqn:E; simpl in H;
    [|discriminate].
  destruct Hj as [<-|Hj]; [eauto|]. apply (IH _ _ H _ Hj).
Qed.

(** [parse_usage] returns only on a text whose cleaned lines are
    [convertible]. *)
Lemma parse_usage_Ret_convertible text r :
  parse_usage text = Ret r -> convertible (clean_lines text).
Proof.
  unfold parse_usage. fold (clean_lines text). intros H.
  apply percent_scans_convertible. intros i li E HA.
  assert (Hi : In i (range 0 (length (clean_lines text)))).
  { apply in_range_iff. split; [lia|]. apply nth_error_Some. congruence. }
  destruct (loop_Ret_steps _ _ _ H _ Hi) as (r0 & r1 & Hs).
  apply (step_Ret_scan _ _ _ Hs E HA).
Qed.

(** The check [convertibleb] establishes [convertible]. *)
Lemma convertibleb_sound lines :
  convertibleb lines = true -> convertible lines.
Proof.
  unfold convertibleb. intros H. apply percent_scans_convertible.
  intros i li E HA. rewrite forallb_forall in H.
  assert (Hi : In i (range 0 (length lines))).
  { apply in_range_iff. split; [lia|]. apply nth_error_Some. congruence. }
  specialize (H i Hi). rewrite E, HA in H.
  destruct (scan percent_at lines _) as [o|e]; [eauto|discriminate].
Qed.

(** The only exception of an iteration inside the list is the [ValueError]
    of [int]. *)
Lemma step_Raise lines i r e :
  i < length lines -> step lines i r = Raise e -> e = ValueError.
Proof.
  intros Hi. unfold step, index.
  destruct (nth_error lines i) as [li|] eqn:E;
    [|apply nth_error_None in E; lia].
  simpl.
  destruct (scan_range_total session_reset_at session_reset_at_total lines i 3)
    as [sr Hsr].
  destruct (scan_range_total weekly_reset_at weekly_reset_at_total lines i 5)
    as [wr Hwr].
  rewrite Hsr, Hwr.
  destruct (scan percent_at lines _) as [p|ep] eqn:Hp.
  - destruct (is_session_header _), (is_weekly_header _),
      (is_sonnet_header _); simpl; discriminate.
  - apply scan_Raise in Hp as [l Hl];
      [|intros j Hj; apply in_range_iff in Hj; lia].
    apply percent_at_Raise in Hl. subst ep.
    destruct (is_session_header _), (is_weekly_header _),
      (is_sonnet_header _); simpl; intros H; try discriminate H;
      now injection H as <-.
Qed.

Lemma loop_Raise lines : forall todo r e,
  (forall i, In i todo -> i < length lines) ->
  loop lines todo r = Raise e -> e = ValueError.
Proof.
  induction todo as [|i todo IH]; intros r e H; simpl; [discriminate|].
  destruct (step lines i r) as [r1|e1] eqn:E; simpl.
  - apply IH. intros j Hj. apply H. now right.
  - intros [= <-]. apply (step_Raise _ _ (H i (or_introl eq_refl)) E).
Qed.

(** The only exception of [parse_usage] is [ValueError]. *)
Lemma parse_usage_Raise text e :
  parse_usage text = Raise e -> e = ValueError.
Proof.
  unfold parse_usage. apply loop_Raise. intros i Hi.
  apply in_range_iff in Hi. lia.
Qed.

Section Field.

Context {B : Type} (lines : list str) (proj : usage -> B)
        (h : nat -> option B).
Hypothesis proj_step : forall i r, proj (apply_hits lines i r) = upd (h i) (proj r).

Lemma field_fold : forall todo r,
  proj (fold_left (fun r i => apply_hits lines i r) todo r)
  = fold_left (fun x i => upd (h i) x) todo (proj r).
Proof.
  induction todo as [|i todo IH]; intros r; simpl; [reflexivity|].
  now rewrite IH, proj_step.
Qed.

(** No header window yields a value: the field keeps its value. *)
Lemma field_untouched todo r :
  (forall i, In i todo -> h i = None) ->
  proj (fold_left (fun r i => apply_hits lines i r) todo r) = proj r.
Proof.
  rewrite field_fold. generalize (proj r).
  induction todo as [|i todo IH]; intros x H; simpl; [reflexivity|].
  rewrite IH by (intros j Hj; apply H; now right).
  now rewrite (H i (or_introl eq_refl)).
Qed.

(** The last header window that yields a value decides the field. *)
Lemma field_last todo1 i todo2 r v :
  h i = Some v -> (forall j, In j todo2 -> h j = None) ->
  proj (fold_left (fun r i => apply_hits lines i r) (todo1 ++ i :: todo2) r)
  = v.
Proof.
  intros Hi H2. rewrite fold_left_app. simpl.
  rewrite field_untouched by assumption. now rewrite proj_step, Hi.
Qed.

(** A property of the initial value and of every value a window can yield
    holds of the field at the end. *)
Lemma field_invariant (Inv : B -> Prop) todo r :
  Inv (proj r) -> (forall i v, h i = Some v -> Inv v) ->
  Inv (proj (fold_left (fun r i => apply_hits lines i r) todo r)).
Proof.
  intros H0 Hh. rewrite field_fold. revert H0. generalize (proj r).
  induction todo as [|i todo IH]; intros x Hx; simpl; [assumption|].
  apply IH. destruct (h i) as [v|] eqn:E; simpl; eauto.
Qed.

End Field.

Lemma raw_apply_hits lines i r : raw (apply_hits lines i r) = raw r.
Proof.
  unfold apply_hits.
  destruct (hit percent_at is_sonnet_header 3 lines i),
    (hit weekly_reset_at is_weekly_header 5 lines i),
    (hit percent_at is_weekly_header 3 lines i),
    (hit session_reset_at is_session_header 3 lines i),
    (hit percent_at is_session_header 3 lines i); reflexivity.
Qed.

Ltac hits_cases lines i :=
  unfold apply_hits;
  destruct (hit percent_at is_sonnet_header 3 lines i),
    (hit weekly_reset_at is_weekly_header 5 lines i),
    (hit percent_at is_weekly_header 3 lines i),
    (hit session_reset_at is_session_header 3 lines i),
    (hit percent_at is_session_header 3 lines i); reflexivity.

Lemma session_percent_step lines i r :
  session_percent (apply_hits lines i r)
  = upd (hit percent_at is_session_header 3 lines i) (session_percent r).
Proof. hits_cases lines i. Qed.

Lemma session_reset_step lines i r :
  session_reset (apply_hits lines i r)
  = upd (hit session_reset_at is_session_header 3 lines i) (session_reset r).
Proof. hits_cases lines i. Qed.

Lemma weekly_percent_step lines i r :
  weekly_percent (apply_hits lines i r)
  = upd (hit percent_at is_weekly_header 3 lines i) (weekly_percent r).
Proof. hits_cases lines i. Qed.

Lemma weekly_reset_step lines i r :
  weekly_reset (apply_hits lines i r)
  = upd (hit weekly_reset_at is_weekly_header 5 lines i) (weekly_reset r).
Proof. hits_cases lines i. Qed.

Lemma sonnet_percent_step lines i r :
  sonnet_percent (apply_hits lines i r)
  = upd (hit percent_at is_sonnet_header 3 lines i) (sonnet_percent r).
Proof. hits_cases lines i. Qed.

Lemma raw_fold lines todo r :
  raw (fold_left (fun r i => apply_hits lines i r) todo r) = raw r.
Proof.
  revert r. induction todo as [|i todo IH]; intros r; simpl; [reflexivity|].
  now rewrite IH, raw_apply_hits.
Qed.

(** * The claims *)


(** ** Texts on which [parse_usage] raises *)


Lemma Forall_convertible lines :
  Forall pct_convertible lines -> convertible lines.
Proof.
  intros H i li j l _ _ _ E _. rewrite Forall_forall in H.
  apply H. apply (nth_error_In _ _ E).
Qed.





(** ** The [raw] field *)

Lemma slice_from_last (k : nat) (s : str) :
  (0 < k)%nat ->
  slice_from (- Z.of_nat k) s = skipn (length s - k) s.
Proof.
  intros Hk. unfold slice_from.
  destruct (Z.ltb_spec (- Z.of_nat k) 0) as [_|H]; [|lia].
  f_equal. lia.
Qed.

Lemma raw_parse_usage text r :
  parse_usage text = Ret r ->
  raw r = skipn (length (clean_text text) - 1000) (clean_text text).
Proof.
  intros H. apply parse_usage_Ret in H. subst r. rewrite raw_fold.
  simpl raw. change (-1000)%Z with (- Z.of_nat 1000)%Z.
  apply slice_from_last. lia.
Qed.

(** C5: the [raw] field of every record [parse_usage] returns has at most
    1000 characters; when the cleaned text is longer than 1000 characters,
    [raw] is exactly its final 1000 characters; when it has 1000 characters
    or fewer, [raw] is the whole cleaned text. *)
Theorem raw_is_tail_of_clean (text : str) (r : usage) :
  parse_usage text = Ret r ->
  length (raw r) <= 1000 /\
  (length (clean_text text) > 1000 ->
   length (raw r) = 1000 /\ exists pre, clean_text text = pre ++ raw r) /\
  (length (clean_text text) <= 1000 -> raw r = clean_text text).
Proof.
  intros E. rewrite (raw_parse_usage _ E).
  set (c := clean_text text). rewrite length_skipn. repeat split.
  - lia.
  - lia.
  - exists (firstn (length c - 1000) c). now rewrite firstn_skipn.
  - intros H. replace (length c - 1000) with 0 by lia. reflexivity.
Qed.

Lemma raw_is_tail_of_clean_witness :
  (exists r : usage,
     parse_usage (repeat (ch "x") 1200) = Ret r /\
     length (raw r) = 1000 /\
     exists pre, clean_text (repeat (ch "x") 1200) = pre ++ raw r) /\
  (exists r : usage,
     parse_usage (s2l "Sonnet only 7%") = Ret r /\
     raw r = clean_text (s2l "Sonnet only 7%")).
Proof.
  split.
  - eexists. split; [vm_compute; reflexivity|].
    refine (proj1 (proj2 (raw_is_tail_of_clean (repeat (ch "x") 1200) _)) _).
    + vm_compute. reflexivity.
    + assert (L : length (clean_text (repeat (ch "x") 1200)) = 1200)
        by (vm_compute; reflexivity).
      rewrite L. lia.
  - eexists. split; [vm_compute; reflexivity|].
    refine (proj2 (proj2 (raw_is_tail_of_clean (s2l "Sonnet only 7%") _)) _).
    + vm_compute. reflexivity.
    + assert (L : length (clean_text (s2l "Sonnet only 7%")) = 14)
        by (vm_compute; reflexivity).
      rewrite L. lia.
Defined.

(** ** Idempotence of escape stripping *)

Lemma clean_char_not_esc c : is_clean_char c = true -> c <> ESC.
Proof. intros H ->. discriminate. Qed.

(** C6: on text that has been through the whole cleaning pipeline, the two
    escape-sequence substitutions change nothing. *)
Theorem strip_escapes_idempotent_on_clean (text : str) :
  strip_escapes (clean_text text) = clean_text text.
Proof.
  apply strip_escapes_noesc.
  eapply Forall_impl; [|apply clean_text_chars].
  intros c. apply clean_char_not_esc.
Qed.

(** ** Character set of [raw] *)

Lemma is_clean_char_spec c :
  is_clean_char c = true <-> (32 <= c <= 126)%N \/ c = NL.
Proof.
  unfold is_clean_char, in_range.
  rewrite orb_true_iff, andb_true_iff, !N.leb_le, N.eqb_eq. tauto.
Qed.

Lemma Forall_skipn {A} (P : A -> Prop) n (s : list A) :
  Forall P s -> Forall P (skipn n s).
Proof.
  intros H. rewrite <- (firstn_skipn n s) in H.
  now apply Forall_app in H as [_ H].
Qed.

(** C10: every character of the [raw] field of a record [parse_usage]
    returns is printable ASCII (0x20 to 0x7E) or a newline, and [raw] has no
    two consecutive spaces. *)
Theorem raw_printable_single_spaced (text : str) (r : usage) :
  parse_usage text = Ret r ->
  Forall (fun c => (32 <= c <= 126)%N \/ c = NL) (raw r) /\
  forall a b, raw r <> a ++ SP :: SP :: b.
Proof.
  intros E. rewrite (raw_parse_usage _ E). split.
  - apply Forall_skipn. eapply Forall_impl; [|apply clean_text_chars].
    intros c. apply is_clean_char_spec.
  - apply single_spaced_spec, single_spaced_skipn.
    rewrite clean_text_eq. apply squeeze_single_spaced.
Qed.

Lemma raw_printable_single_spaced_witness :
  exists r : usage,
    parse_usage (ESC :: s2l "[1mSonnet   only" ++ 9%N :: 233%N :: s2l "7%")
      = Ret r /\
    raw r = s2l "Sonnet only 7%" /\
    Forall (fun c => (32 <= c <= 126)%N \/ c = NL) (raw r) /\
    forall a b, raw r <> a ++ SP :: SP :: b.
Proof.
  eexists. split; [vm_compute; reflexivity|]. split; [reflexivity|].
  apply (raw_printable_single_spaced
           (ESC :: s2l "[1mSonnet   only" ++ 9%N :: 233%N :: s2l "7%")).
  vm_compute. reflexivity.
Defined.

(** ** Texts without section headers *)

Lemma contains_lower_strip_false p l :
  contains p (lower l) = false -> contains p (lower (strip l)) = false.
Proof.
  intros H. destruct (contains p (lower (strip l))) eqn:E; [|reflexivity].
  apply contains_lower_strip in E. congruence.
Qed.





(** ** The reset fields *)

Lemma reset_hit_ok (f : str -> outcome (option str)) hdr k text i v :
  (forall l, exists o, f l = Ret o /\
             forall v, o = Some v ->
                       Forall not_rparen v /\
                       forall Q : char -> Prop, Forall Q l -> Forall Q v) ->
  hit f hdr k (clean_lines text) i = Some v -> reset_text_ok v.
Proof.
  intros Hf H. apply hit_Some in H as (j & l & _ & Hl & Hv).
  destruct (Hf l) as (o & Ho & Hspec). rewrite Ho in Hv.
  injection Hv as ->. destruct (Hspec v eq_refl) as [H1 H2].
  split; [assumption|]. apply H2.
  pose proof (split_on_no_sep NL (clean_text text)) as Hall.
  rewrite Forall_forall in Hall. apply Hall.
  apply (nth_error_In _ _ Hl).
Qed.

Lemma Forall_neq_not_In (x : char) (s : str) :
  Forall (fun c => c <> x) s -> ~ In x s.
Proof. rewrite Forall_forall. intros H Hin. now apply (H x Hin). Qed.

(** C9: the two reset fields of a record [parse_usage] returns never contain
    a closing parenthesis nor a newline. *)
Theorem reset_fields_exclude_rparen_and_newline (text : str) (r : usage) :
  parse_usage text = Ret r ->
  ~ In (ch ")") (session_reset r) /\ ~ In NL (session_reset r) /\
  ~ In (ch ")") (weekly_reset r) /\ ~ In NL (weekly_reset r).
Proof.
  intros E. apply parse_usage_Ret in E. subst r.
  set (r := fold_left _ _ _).
  assert (Hs : reset_text_ok (session_reset r)).
  { apply (field_invariant _ _ _ (session_reset_step _)).
    - split; constructor.
    - intros i v. apply reset_hit_ok. apply session_reset_at_spec. }
  assert (Hw : reset_text_ok (weekly_reset r)).
  { apply (field_invariant _ _ _ (weekly_reset_step _)).
    - split; constructor.
    - intros i v. apply reset_hit_ok. apply weekly_reset_at_spec. }
  destruct Hs as [Hs1 Hs2], Hw as [Hw1 Hw2].
  repeat split; now apply Forall_neq_not_In.
Qed.

Lemma reset_fields_exclude_rparen_and_newline_witness :
  exists r : usage,
    parse_usage (session_scenario ++ NL :: weekly_scenario) = Ret r /\
    session_reset r = s2l "3:00pm (America/NY" /\
    weekly_reset r = s2l "Jan 5, 2025" /\
    ~ In (ch ")") (session_reset r) /\ ~ In NL (session_reset r) /\
    ~ In (ch ")") (weekly_reset r) /\ ~ In NL (weekly_reset r).
Proof.
  eexists. split; [vm_compute; reflexivity|].
  split; [reflexivity|]. split; [reflexivity|].
  apply (reset_fields_exclude_rparen_and_newline
           (session_scenario ++ NL :: weekly_scenario)).
  vm_compute. reflexivity.
Defined.

(** ** Texts without escape characters, line by line *)

Lemma forallb_not_esc s :
  forallb not_esc s = true -> Forall (fun c => c <> ESC) s.
Proof.
  rewrite forallb_forall, Forall_forall. intros H c Hc.
  specialize (H c Hc). unfold not_esc in H. apply negb_true_iff in H.
  now apply N.eqb_neq.
Qed.

Lemma clean_text_noesc s :
  forallb not_esc s = true ->
  clean_text s = squeeze false (map printable s).
Proof.
  intros H. rewrite clean_text_eq, strip_escapes_noesc; [reflexivity|].
  now apply forallb_not_esc.
Qed.

(** Cleaning works line by line on text without escape characters. *)
Lemma clean_lines_app x y :
  forallb not_esc x = true -> forallb not_esc y = true ->
  clean_lines (x ++ NL :: y) = clean_lines x ++ clean_lines y.
Proof.
  intros Hx Hy. unfold clean_lines.
  rewrite !clean_text_noesc; try assumption.
  - rewrite map_app. simpl map. change (printable NL) with NL.
    now rewrite squeeze_app_nl, split_on_app.
  - rewrite forallb_app. simpl. now rewrite Hx, Hy.
Qed.

(** A header line whose window yields a value, followed by no other header
    of the section, decides the field. *)
Lemma field_after_header {A} (f : str -> outcome (option A)) hdr k
    (proj : usage -> A) L1 hd rest v r :
  (forall lines i r,
      proj (apply_hits lines i r) = upd (hit f hdr k lines i) (proj r)) ->
  hit f hdr k (L1 ++ hd :: rest) (length L1) = Some v ->
  (forall l, In l rest -> hdr (lower (strip l)) = false) ->
  proj (fold_left (fun r i => apply_hits (L1 ++ hd :: rest) i r)
          (range 0 (length (L1 ++ hd :: rest))) r) = v.
Proof.
  intros Hstep Hhit Hrest.
  assert (Hr : range 0 (length (L1 ++ hd :: rest))
               = seq 0 (length L1) ++ length L1
                   :: seq (S (length L1)) (length rest)).
  { unfold range. rewrite length_app. simpl length.
    rewrite Nat.sub_0_r, seq_app. simpl. reflexivity. }
  rewrite Hr.
  apply (field_last _ _ _ (Hstep _) _ _ _ _ Hhit).
  intros j Hj. apply in_seq in Hj.
  destruct (nth_error (L1 ++ hd :: rest) j) as [l|] eqn:E.
  - apply (hit_not_header _ _ _ _ _ E).
    apply Hrest. rewrite nth_error_app2 in E by lia.
    destruct (j - length L1) as [|m] eqn:Em; [lia|].
    simpl in E. apply (nth_error_In _ _ E).
  - unfold hit. now rewrite E.
Qed.

Lemma not_header_forallb (hdr : str -> bool) lines :
  forallb (fun l => negb (hdr (lower (strip l)))) lines = true ->
  forall l, In l lines -> hdr (lower (strip l)) = false.
Proof.
  rewrite forallb_forall. intros H l Hl. now apply negb_true_iff, H.
Qed.

Ltac window_prefix_empty :=
  let n := fresh "n" in let l := fresh "l" in
  let Hn := fresh "Hn" in let E := fresh "E" in
  intros n l Hn E;
  repeat (destruct n as [|n]; [injection E as <-; vm_compute; reflexivity|]);
  lia.

(** ** The session scenario *)

(** The scenario text itself: the reset text stops before the closing
    parenthesis. *)
Lemma session_scenario_counterexample :
  contains session_scenario session_scenario = true /\
  exists r : usage,
    parse_usage session_scenario = Ret r /\
    session_percent r = 45%Z /\
    session_reset r = s2l "3:00pm (America/NY" /\
    contains (s2l "3:00pm (America/NY)") (session_reset r) = false.
Proof.
  split; [vm_compute; reflexivity|].
  eexists. split; [vm_compute; reflexivity|].
  repeat split.
Qed.

(** C2, amended: for a text whose cleaned lines contain the three scenario
    lines in sequence, with no line containing "current session" after
    them, and in which the digits that a percent scan reaches are at most
    4300 ([convertible]), [session_percent] is 45 and [session_reset] is
    "3:00pm (America/NY", the reset text up to, and without, the closing
    parenthesis. *)
Theorem session_scenario_parsed (text : str) (L1 L2 : list str) :
  clean_lines text
  = L1 ++ [s2l "Current session"; s2l " 45%";
           s2l " Resets 3:00pm (America/NY)"] ++ L2 ->
  (forall l, In l L2 -> is_session_header (lower (strip l)) = false) ->
  convertible (clean_lines text) ->
  exists r : usage,
    parse_usage text = Ret r /\
    session_percent r = 45%Z /\
    session_reset r = s2l "3:00pm (America/NY".
Proof.
  intros E Hhdr HC.
  assert (Hrest : forall l,
             In l (s2l " 45%" :: s2l " Resets 3:00pm (America/NY)" :: L2) ->
             is_session_header (lower (strip l)) = false).
  { intros l [<-|[<-|Hl]]; [reflexivity|reflexivity|]. now apply Hhdr. }
  eexists. split; [apply parse_usage_eq; exact HC|]. rewrite E.
  cbn [app]. split.
  - apply (field_after_header percent_at is_session_header 3).
    + intros. apply session_percent_step.
    + apply (hit_window_first percent_at is_session_header L1 _ _
               (n := 1) (l := s2l " 45%"));
        [reflexivity|lia|reflexivity|reflexivity|window_prefix_empty].
    + exact Hrest.
  - apply (field_after_header session_reset_at is_session_header 3).
    + intros. apply session_reset_step.
    + apply (hit_window_first session_reset_at is_session_header L1 _ _
               (n := 2) (l := s2l " Resets 3:00pm (America/NY)"));
        [reflexivity|lia|reflexivity|reflexivity|window_prefix_empty].
    + exact Hrest.
Qed.

Lemma session_scenario_parsed_witness :
  exists r : usage,
    parse_usage (ESC :: s2l "[1mClaude  Code" ++ [NL] ++ session_scenario
                 ++ NL :: ESC :: s2l "[0mCurrent week (all models)")
      = Ret r /\
    session_percent r = 45%Z /\
    session_reset r = s2l "3:00pm (America/NY".
Proof.
  apply (session_scenario_parsed
           (ESC :: s2l "[1mClaude  Code" ++ [NL] ++ session_scenario
            ++ NL :: ESC :: s2l "[0mCurrent week (all models)")
           [s2l "Claude Code"] [s2l "Current week (all models)"]).
  - vm_compute. reflexivity.
  - apply not_header_forallb. vm_compute. reflexivity.
  - apply convertibleb_sound. vm_compute. reflexivity.
Defined.

(** ** The weekly scenario *)

(** A later header line of the same section overrides the scenario's
    values. *)
Lemma weekly_scenario_counterexample :
  let text := weekly_scenario ++ NL ::
              unlines ["Current week (all models)"; "  50%"]%string in
  contains weekly_scenario text = true /\
  exists r : usage,
    parse_usage text = Ret r /\ weekly_percent r = 50%Z /\
    weekly_percent r <> 12%Z.
Proof.
  split; [vm_compute; reflexivity|].
  eexists. split; [vm_compute; reflexivity|].
  split; [reflexivity|discriminate].
Qed.

(** C7, amended: for a text whose cleaned lines contain the three scenario
    lines in sequence, with no line containing both "current week" and
    "all models" after them, and in which the digits that a percent scan
    reaches are at most 4300 ([convertible]), [weekly_percent] is 12 and
    [weekly_reset] is "Jan 5, 2025". *)
Theorem weekly_scenario_parsed (text : str) (L1 L2 : list str) :
  clean_lines text
  = L1 ++ [s2l "Current week (all models)"; s2l " 12%";
           s2l " Resets Jan 5, 2025"] ++ L2 ->
  (forall l, In l L2 -> is_weekly_header (lower (strip l)) = false) ->
  convertible (clean_lines text) ->
  exists r : usage,
    parse_usage text = Ret r /\
    weekly_percent r = 12%Z /\
    weekly_reset r = s2l "Jan 5, 2025".
Proof.
  intros E Hhdr HC.
  assert (Hrest : forall l,
             In l (s2l " 12%" :: s2l " Resets Jan 5, 2025" :: L2) ->
             is_weekly_header (lower (strip l)) = false).
  { intros l [<-|[<-|Hl]]; [reflexivity|reflexivity|]. now apply Hhdr. }
  eexists. split; [apply parse_usage_eq; exact HC|]. rewrite E.
  cbn [app]. split.
  - apply (field_after_header percent_at is_weekly_header 3).
    + intros. apply weekly_percent_step.
    + apply (hit_window_first percent_at is_weekly_header L1 _ _
               (n := 1) (l := s2l " 12%"));
        [reflexivity|lia|reflexivity|reflexivity|window_prefix_empty].
    + exact Hrest.
  - apply (field_after_header weekly_reset_at is_weekly_header 5).
    + intros. apply weekly_reset_step.
    + apply (hit_window_first weekly_reset_at is_weekly_header L1 _ _
               (n := 2) (l := s2l " Resets Jan 5, 2025"));
        [reflexivity|lia|reflexivity|reflexivity|window_prefix_empty].
    + exact Hrest.
Qed.

Lemma weekly_scenario_parsed_witness :
  exists r : usage,
    parse_usage (ESC :: s2l "[2J" ++ session_scenario ++ [NL]
                 ++ weekly_scenario
                 ++ NL :: ESC :: s2l "[32mSonnet only 7%") = Ret r /\
    weekly_percent r = 12%Z /\
    weekly_reset r = s2l "Jan 5, 2025".
Proof.
  apply (weekly_scenario_parsed
           (ESC :: s2l "[2J" ++ session_scenario ++ [NL] ++ weekly_scenario
            ++ NL :: ESC :: s2l "[32mSonnet only 7%")
           [s2l "Current session"; s2l " 45%";
            s2l " Resets 3:00pm (America/NY)"]
           [s2l "Sonnet only 7%"]).
  - vm_compute. reflexivity.
  - apply not_header_forallb. vm_compute. reflexivity.
  - apply convertibleb_sound. vm_compute. reflexivity.
Defined.

(** ** Percent extraction *)

Lemma percent_of_step sec lines i r :
  percent_of sec (apply_hits lines i r)
  = upd (hit percent_at (header_of sec) 3 lines i) (percent_of sec r).
Proof.
  destruct sec; simpl;
    [apply session_percent_step|apply weekly_percent_step
    |apply sonnet_percent_step].
Qed.

Lemma immediate_is_pct_occurrence l a d b :
  immediate_occurrence l a d b -> pct_occurrence l a d [] b.
Proof. intros (E & Hd & D). now repeat split. Qed.

(** In the window "Current session", "45 %", "50%" the first digits
    immediately followed by a percent sign are the "50" of the third line,
    but the field is 45: the pattern allows whitespace before the percent
    sign. *)
Lemma percent_immediate_counterexample :
  let text := unlines ["Current session"; "45 %"; "50%"]%string in
  clean_lines text = [s2l "Current session"; s2l "45 %"; s2l "50%"] /\
  is_session_header (lower (strip (s2l "Current session"))) = true /\
  (forall a d b, ~ immediate_occurrence (s2l "Current session") a d b) /\
  (forall a d b, ~ immediate_occurrence (s2l "45 %") a d b) /\
  immediate_occurrence (s2l "50%") [] (s2l "50") [] /\
  exists r : usage,
    parse_usage text = Ret r /\ session_percent r = 45%Z /\
    session_percent r <> dec_value (s2l "50").
Proof.
  split; [vm_compute; reflexivity|].
  split; [vm_compute; reflexivity|].
  split.
  { intros a d b H. apply immediate_is_pct_occurrence in H. revert H.
    apply percent_at_None. vm_compute. reflexivity. }
  split.
  { intros a d b (E & Hd & D).
    destruct a as [|a0 [|a1 [|a2 [|a3 [|a4 a]]]]];
      destruct d as [|d0 [|d1 [|d2 [|d3 [|d4 d]]]]];
      try congruence; vm_compute in E; try discriminate E;
      injection E; intros; subst; vm_compute in D; discriminate D. }
  split.
  { repeat split. discriminate. }
  eexists. split; [vm_compute; reflexivity|].
  split; [reflexivity|]. vm_compute. discriminate.
Qed.

Lemma header_of_any sec x : header_of sec x = true -> is_any_header x = true.
Proof.
  unfold is_any_header. destruct sec; simpl; intros ->;
    rewrite ?orb_true_r; reflexivity.
Qed.

(** C3, amended: in a text in which the digits that a percent scan reaches
    are at most 4300 ([convertible]), for the last header line of a section
    the section's percent field is the value of the digits of the first
    occurrence, on the header line and then on the next two lines in order,
    of digits followed by optional whitespace and a percent sign; within a
    line the leftmost occurrence counts, and nothing before the header line
    matters. *)
Theorem percent_first_in_window (text : str) (sec : section)
    (L1 : list str) (hd : str) (rest : list str) (n : nat)
    (l a d w b : str) :
  convertible (clean_lines text) ->
  clean_lines text = L1 ++ hd :: rest ->
  header_of sec (lower (strip hd)) = true ->
  (forall x, In x rest -> header_of sec (lower (strip x)) = false) ->
  n < 3 -> nth_error (hd :: rest) n = Some l ->
  (forall n' l', n' < n -> nth_error (hd :: rest) n' = Some l' ->
                 forall a' d' w' b', ~ pct_occurrence l' a' d' w' b') ->
  pct_occurrence l a d w b ->
  (forall a' d' w' b', pct_occurrence l a' d' w' b' ->
                       length a <= length a') ->
  exists r : usage,
    parse_usage text = Ret r /\ percent_of sec r = dec_value d.
Proof.
  intros HC E Hhd Hrest Hn Hl Hbefore Hocc Hleft.
  assert (Hd : (N.of_nat (length d) <= int_max_str_digits)%N).
  { assert (Hpc : pct_convertible l);
      [|exact (Hpc a d w b Hocc Hleft)].
    pose proof HC as HC'. rewrite E in HC'.
    apply (HC' (length L1) hd (length L1 + n) l).
    - now rewrite nth_error_app2, Nat.sub_diag by lia.
    - now apply (header_of_any sec).
    - lia.
    - rewrite nth_error_app2 by lia.
      now replace (length L1 + n - length L1) with n by lia.
    - intros j' l' Hj' El'. rewrite nth_error_app2 in El' by lia.
      apply (Hbefore (j' - length L1) l'); [lia|assumption]. }
  eexists. split; [apply parse_usage_eq; exact HC|].
  rewrite E.
  apply (field_after_header percent_at (header_of sec) 3).
  - intros. apply percent_of_step.
  - apply (hit_window_first percent_at (header_of sec) L1 hd rest
             (n := n) (l := l)); try assumption.
    + now apply (percent_at_first Hocc).
    + intros n' l' Hn' Hl'. apply percent_at_None. eauto.
  - exact Hrest.
Qed.

Lemma percent_first_in_window_witness :
  exists r : usage,
    parse_usage (unlines ["99% used"; "Sonnet only"; "45 %"; "50%"]%string)
      = Ret r /\
    sonnet_percent r = 45%Z.
Proof.
  apply (percent_first_in_window
           (unlines ["99% used"; "Sonnet only"; "45 %"; "50%"]%string)
           Sonnet [s2l "99% used"] (s2l "Sonnet only")
           [s2l "45 %"; s2l "50%"] (n := 1) (l := s2l "45 %")
           (a := []) (d := s2l "45") (w := s2l " ") (b := [])).
  - apply convertibleb_sound. vm_compute. reflexivity.
  - vm_compute. reflexivity.
  - vm_compute. reflexivity.
  - apply not_header_forallb. vm_compute. reflexivity.
  - lia.
  - reflexivity.
  - intros n' l' Hn' E. destruct n' as [|n']; [|lia].
    injection E as <-. apply percent_at_None. vm_compute. reflexivity.
  - repeat split. discriminate.
  - intros. simpl. lia.
Defined.

(** ** No clamping *)

Lemma digit_or_pct_facts c :
  digit_or_pct c ->
  not_esc c = true /\ is_unprintable c = false /\ is_sp c = false /\
  lower_char c = c /\ c <> NL /\ c <> ch "c".
Proof.
  intros [H| ->]; [|repeat split; try reflexivity; discriminate].
  unfold ch. simpl N_of_ascii. repeat split; char_facts.
Qed.

Lemma digits_then_pct d :
  forallb is_digit d = true -> Forall digit_or_pct (d ++ [ch "%"]).
Proof.
  intros H. apply Forall_app. split.
  - rewrite forallb_forall in H. apply Forall_forall. intros c Hc.
    left. now apply H.
  - constructor; [now right|constructor].
Qed.

Lemma squeeze_plain : forall s b,
  Forall (fun c => is_unprintable c = false /\ is_sp c = false) s ->
  squeeze b (map printable s) = s.
Proof.
  induction s as [|c s IH]; intros b H; simpl; [reflexivity|].
  inversion H as [|x y [Hu Hs] Hrest]; subst.
  unfold printable at 1. rewrite Hu, Hs. unfold printable at 1.
  rewrite Hu. now rewrite IH.
Qed.

Lemma split_on_none sep s :
  Forall (fun c => c <> sep) s -> split_on sep s = [s].
Proof.
  induction 1 as [|c s Hc Hs IH]; simpl; [reflexivity|].
  destruct (N.eqb_spec c sep); [contradiction|]. now rewrite IH.
Qed.

Lemma contains_first c p s : contains (c :: p) s = true -> In c s.
Proof.
  intros H. apply contains_spec in H as (a & b & ->).
  apply in_or_app. right. now left.
Qed.

Lemma digits_line_clean d :
  forallb is_digit d = true ->
  clean_lines (d ++ [ch "%"]) = [d ++ [ch "%"]].
Proof.
  intros H. pose proof (digits_then_pct d H) as F.
  unfold clean_lines. rewrite clean_text_noesc.
  - rewrite squeeze_plain.
    + apply split_on_none. eapply Forall_impl; [|exact F].
      intros c Hc. now apply digit_or_pct_facts.
    + eapply Forall_impl; [|exact F].
      intros c Hc. split; now apply digit_or_pct_facts.
  - apply forallb_forall. rewrite Forall_forall in F. intros c Hc.
    now apply digit_or_pct_facts, F.
Qed.

Lemma digits_line_not_header d :
  forallb is_digit d = true ->
  is_session_header (lower (strip (d ++ [ch "%"]))) = false.
Proof.
  intros H. pose proof (digits_then_pct d H) as F.
  apply Forall_strip in F.
  destruct (is_session_header _) eqn:E; [|reflexivity].
  apply contains_first in E. unfold lower in E.
  apply in_map_iff in E as (x & Hx & Hin).
  rewrite Forall_forall in F. specialize (F x Hin).
  apply digit_or_pct_facts in F as (_ & _ & _ & Hl & _ & Hc).
  rewrite Hl in Hx. contradiction.
Qed.

Lemma dec_value_nonneg d : (0 <= dec_value d)%Z.
Proof.
  assert (H : forall s acc, (0 <= acc)%Z ->
            (0 <= fold_left (fun a c => 10 * a + digit_val c) s acc)%Z).
  { induction s as [|c s IH]; intros acc Hacc; cbn [fold_left];
      [assumption|].
    apply IH. pose proof (N2Z.is_nonneg (N.sub c 48)).
    unfold digit_val. lia. }
  apply H. lia.
Qed.

(** C4: a percent value is a non-negative integer passed through as it is,
    whatever its size: for a session header followed by a line with digits,
    as many as [int] converts, and a percent sign, [session_percent] is the
    value of those digits. *)
Theorem percent_not_clamped (d : str) :
  d <> [] -> forallb is_digit d = true ->
  (N.of_nat (length d) <= int_max_str_digits)%N ->
  exists r : usage,
    parse_usage (s2l "Current session" ++ NL :: d ++ [ch "%"]) = Ret r /\
    session_percent r = dec_value d /\ (0 <= session_percent r)%Z.
Proof.
  intros Hd D Hlen.
  cut (exists r : usage,
         parse_usage (s2l "Current session" ++ NL :: d ++ [ch "%"]) = Ret r /\
         session_percent r = dec_value d).
  { intros (r & E & H). exists r. repeat split; try assumption.
    rewrite H. apply dec_value_nonneg. }
  assert (E : clean_lines (s2l "Current session" ++ NL :: d ++ [ch "%"])
              = [] ++ s2l "Current session" :: [d ++ [ch "%"]]).
  { rewrite clean_lines_app, digits_line_clean by
      (try reflexivity; try assumption;
       apply forallb_forall; intros c Hc;
       pose proof (digits_then_pct d D) as F; rewrite Forall_forall in F;
       now apply digit_or_pct_facts, F).
    reflexivity. }
  assert (HC : convertible
                 (clean_lines (s2l "Current session" ++ NL :: d ++ [ch "%"]))).
  { rewrite E. apply Forall_convertible.
    constructor; [|constructor; [|constructor]];
      apply short_line_convertible.
    - vm_compute. discriminate.
    - rewrite length_app. cbn [length]. unfold int_max_str_digits in *.
      lia. }
  eexists. split; [apply parse_usage_eq; exact HC|]. rewrite E.
  apply (field_after_header percent_at is_session_header 3).
  - intros. apply session_percent_step.
  - apply (hit_window_first percent_at is_session_header []
             (s2l "Current session") [d ++ [ch "%"]]
             (n := 1) (l := d ++ [ch "%"]));
      [reflexivity|lia|reflexivity| |window_prefix_empty].
    apply (percent_at_first (a := []) (w := []) (b := [])).
    + now repeat split.
    + intros. simpl. lia.
    + exact Hlen.
  - intros l [<-|[]]. now apply digits_line_not_header.
Qed.

Lemma percent_not_clamped_witness :
  exists r : usage,
    parse_usage (unlines ["Current session"; "250%"]%string) = Ret r /\
    session_percent r = 250%Z /\ (session_percent r > 100)%Z.
Proof.
  destruct (percent_not_clamped (d := s2l "250")) as (r & E & H & _);
    [discriminate|reflexivity|vm_compute; discriminate|].
  exists r. split; [exact E|]. rewrite H. split; [reflexivity|].
  vm_compute. reflexivity.
Defined.

(** * Further properties of [parse_usage] *)

(** ** Values of the percent fields *)

Lemma percent_hit_nonneg hdr k lines i v :
  hit percent_at hdr k lines i = Some v -> (0 <= v)%Z.
Proof.
  intros H. apply hit_Some in H as (j & l & _ & _ & Hv).
  apply percent_at_Some in Hv as (a & d & w & b & _ & ->).
  apply dec_value_nonneg.
Qed.

(** X1: the three percent fields of a record [parse_usage] returns are
    non-negative. *)
Theorem percent_fields_nonneg (text : str) (r : usage) :
  parse_usage text = Ret r ->
  (0 <= session_percent r)%Z /\ (0 <= weekly_percent r)%Z /\
  (0 <= sonnet_percent r)%Z.
Proof.
  intros E. apply parse_usage_Ret in E. subst r. repeat split.
  - apply (field_invariant _ _ _ (session_percent_step _)); [simpl; lia|].
    intros i v. apply percent_hit_nonneg.
  - apply (field_invariant _ _ _ (weekly_percent_step _)); [simpl; lia|].
    intros i v. apply percent_hit_nonneg.
  - apply (field_invariant _ _ _ (sonnet_percent_step _)); [simpl; lia|].
    intros i v. apply percent_hit_nonneg.
Qed.

Lemma percent_fields_nonneg_witness :
  exists r : usage,
    parse_usage (unlines ["Current session -45%";
                          "Current week (all models)"; "007 %";
                          "Sonnet only"]%string) = Ret r /\
    session_percent r = 45%Z /\ weekly_percent r = 7%Z /\
    sonnet_percent r = 0%Z /\
    (0 <= session_percent r)%Z /\ (0 <= weekly_percent r)%Z /\
    (0 <= sonnet_percent r)%Z.
Proof.
  eexists. split; [vm_compute; reflexivity|].
  do 3 (split; [reflexivity|]).
  apply (percent_fields_nonneg
           (unlines ["Current session -45%";
                     "Current week (all models)"; "007 %";
                     "Sonnet only"]%string)).
  vm_compute. reflexivity.
Defined.

(** ** The reset fields are trimmed *)

Lemma lstrip_head s c t : lstrip s = c :: t -> is_space c = false.
Proof.
  induction s as [|x s IH]; simpl; [discriminate|].
  destruct (is_space x) eqn:E; [assumption|]. now intros [= <- _].
Qed.

Lemma lstrip_app_nonspace : forall u y v,
  is_space y = false -> lstrip (u ++ y :: v) = lstrip u ++ y :: v.
Proof.
  induction u as [|x u IH]; intros y v Hy; simpl.
  - now rewrite Hy.
  - destruct (is_space x); [now apply IH|reflexivity].
Qed.

(** Right-stripping leaves everything up to the last character that is not
    whitespace. *)
Lemma rstrip_app_nonspace u y v :
  is_space y = false -> rstrip (u ++ y :: v) = u ++ y :: rstrip v.
Proof.
  intros Hy. unfold rstrip.
  rewrite rev_app_distr. simpl rev. rewrite <- app_assoc. simpl app.
  rewrite lstrip_app_nonspace by assumption.
  rewrite rev_app_distr. simpl rev. rewrite rev_involutive.
  now rewrite <- app_assoc.
Qed.

Lemma strip_head s c t : strip s = c :: t -> is_space c = false.
Proof.
  unfold strip. destruct (lstrip s) as [|x u] eqn:E.
  - discriminate.
  - pose proof (lstrip_head _ E) as Hx.
    pose proof (@rstrip_app_nonspace [] x u Hx) as R. simpl in R.
    rewrite R. now intros [= <- _].
Qed.

Lemma strip_last s t c : strip s = t ++ [c] -> is_space c = false.
Proof.
  unfold strip, rstrip. intros H.
  apply (f_equal (@rev _)) in H.
  rewrite rev_involutive, rev_app_distr in H. simpl in H.
  now apply lstrip_head in H.
Qed.

Lemma strip_trimmed s : trimmed (strip s).
Proof.
  split; intros; [eapply strip_head|eapply strip_last]; eassumption.
Qed.

Lemma session_reset_at_stripped l v :
  session_reset_at l = Ret (Some v) -> exists g, v = strip g.
Proof.
  unfold session_reset_at.
  destruct (re_search true session_reset_re l) as [m|]; [|discriminate].
  destruct (group m 1) as [g|]; simpl; [|discriminate].
  intros [= <-]. now exists g.
Qed.

Lemma weekly_reset_at_stripped l v :
  weekly_reset_at l = Ret (Some v) -> exists g, v = strip g.
Proof.
  unfold weekly_reset_at.
  destruct (re_search true weekly_reset_re l) as [m|]; [|discriminate].
  intros [= <-]. eauto.
Qed.

(** X2: the two reset fields of a record [parse_usage] returns are trimmed:
    they neither start nor end with a whitespace character. *)
Theorem reset_fields_trimmed (text : str) (r : usage) :
  parse_usage text = Ret r ->
  trimmed (session_reset r) /\ trimmed (weekly_reset r).
Proof.
  intros E. apply parse_usage_Ret in E. subst r. split.
  - apply (field_invariant _ _ _ (session_reset_step _)).
    + split; [discriminate|]. intros [|x t] c; discriminate.
    + intros i v H. apply hit_Some in H as (j & l & _ & _ & Hv).
      apply session_reset_at_stripped in Hv as [g ->]. apply strip_trimmed.
  - apply (field_invariant _ _ _ (weekly_reset_step _)).
    + split; [discriminate|]. intros [|x t] c; discriminate.
    + intros i v H. apply hit_Some in H as (j & l & _ & _ & Hv).
      apply weekly_reset_at_stripped in Hv as [g ->]. apply strip_trimmed.
Qed.

Lemma reset_fields_trimmed_witness :
  exists r : usage,
    parse_usage (unlines ["Current session"; "Resets   9pm   ";
                          "Current week (all models)";
                          "Resets Jan 5 at 9pm  )"]%string) = Ret r /\
    session_reset r = s2l "9pm" /\ weekly_reset r = s2l "Jan 5 at 9pm" /\
    trimmed (session_reset r) /\ trimmed (weekly_reset r).
Proof.
  eexists. split; [vm_compute; reflexivity|].
  do 2 (split; [reflexivity|]).
  apply (reset_fields_trimmed
           (unlines ["Current session"; "Resets   9pm   ";
                     "Current week (all models)";
                     "Resets Jan 5 at 9pm  )"]%string)).
  vm_compute. reflexivity.
Defined.

(** ** Cleaning twice *)

Lemma is_sp_eq c : is_sp c = true -> c = SP.
Proof. apply N.eqb_eq. Qed.

Lemma squeeze_fixed : forall s b,
  single_spaced s = true -> (b = true -> head_is_sp s = false) ->
  squeeze b s = s.
Proof.
  induction s as [|c s IH]; intros b H Hb; simpl; [reflexivity|].
  simpl in H. apply andb_true_iff in H as [H1 H2].
  destruct (is_sp c) eqn:Hc.
  - simpl in H1. apply negb_true_iff in H1.
    destruct b; [simpl in Hb; rewrite Hc in Hb; now discriminate Hb|].
    rewrite (is_sp_eq _ Hc). f_equal. now apply IH.
  - f_equal. apply IH; [assumption|discriminate].
Qed.

Lemma printable_fixed s :
  Forall (fun c => is_clean_char c = true) s -> map printable s = s.
Proof.
  induction 1 as [|c s Hc Hs IH]; simpl; [reflexivity|].
  rewrite IH. unfold printable, is_unprintable.
  unfold is_clean_char in Hc. now rewrite Hc.
Qed.

Lemma clean_text_single_spaced text : single_spaced (clean_text text) = true.
Proof. rewrite clean_text_eq. apply squeeze_single_spaced. Qed.

(** X3: the cleaning pipeline is idempotent: cleaning a cleaned text changes
    nothing. *)
Theorem clean_text_idempotent (text : str) :
  clean_text (clean_text text) = clean_text text.
Proof.
  rewrite (clean_text_eq (clean_text text)).
  rewrite strip_escapes_noesc.
  - rewrite printable_fixed by apply clean_text_chars.
    apply squeeze_fixed; [apply clean_text_single_spaced|discriminate].
  - eapply Forall_impl; [|apply clean_text_chars].
    intros c. apply clean_char_not_esc.
Qed.

(** X4: parsing a text and parsing its cleaned form give the same record. *)
Theorem parse_usage_of_clean_text (text : str) :
  parse_usage (clean_text text) = parse_usage text.
Proof.
  unfold parse_usage. now rewrite clean_text_idempotent.
Qed.

(** ** Length *)

(** A substitution whose replacement has at most one character does not
    lengthen the subject. *)
Lemma sub_from_length ic r repl : forall s pos skip,
  length repl <= 1 -> length (sub_from ic r repl pos skip s) <= length s.
Proof.
  induction s as [|c s IH]; intros pos skip Hr; simpl; [lia|].
  destruct skip as [|k].
  - destruct (match_here ic r pos (c :: s)) as [m|].
    + destruct (length (mt_text m)) as [|k].
      * simpl. specialize (IH (S pos) 0 Hr). lia.
      * rewrite length_app. specialize (IH (S pos) k Hr). lia.
    + simpl. specialize (IH (S pos) 0 Hr). lia.
  - specialize (IH (S pos) k Hr). lia.
Qed.

Lemma clean_text_length text : length (clean_text text) <= length text.
Proof.
  unfold clean_text, strip_escapes, re_sub.
  repeat match goal with
         | |- length (sub_from ?ic ?r ?repl ?p ?k ?s) <= _ =>
             etransitivity; [apply sub_from_length; simpl; lia|]
         end.
  lia.
Qed.

(** X5: cleaning never lengthens the text, and the [raw] field of a record
    [parse_usage] returns is never longer than the input. *)
Theorem raw_not_longer_than_input (text : str) :
  length (clean_text text) <= length text /\
  forall r : usage, parse_usage text = Ret r -> length (raw r) <= length text.
Proof.
  pose proof (clean_text_length text) as H. split; [exact H|].
  intros r E. rewrite (raw_parse_usage _ E).
  rewrite length_skipn. lia.
Qed.

Lemma raw_not_longer_than_input_witness :
  exists r : usage,
    parse_usage (ESC :: s2l "[1mSonnet   only 7%") = Ret r /\
    raw r = s2l "Sonnet only 7%" /\
    length (raw r) <= length (ESC :: s2l "[1mSonnet   only 7%").
Proof.
  eexists. split; [vm_compute; reflexivity|].
  split; [reflexivity|].
  apply (proj2 (raw_not_longer_than_input
                  (ESC :: s2l "[1mSonnet   only 7%"))).
  vm_compute. reflexivity.
Defined.

(** ** Matching does not depend on the position, without an anchor *)

Lemma star_from_shift ic p k : forall s pos g,
  star_from ic p (k + pos) s g = map (shift k) (star_from ic p pos s g).
Proof.
  induction s as [|c s IH]; intros pos g; simpl; [reflexivity|].
  destruct (p (fold_case ic c)); [|reflexivity].
  rewrite map_app. simpl. rewrite <- IH. now rewrite Nat.add_succ_r.
Qed.

Lemma flat_map_shift (f : mstate -> list mstate) k :
  (forall st, f (shift k st) = map (shift k) (f st)) ->
  forall l, flat_map f (map (shift k) l) = map (shift k) (flat_map f l).
Proof.
  intros Hf. induction l as [|st l IH]; simpl; [reflexivity|].
  now rewrite Hf, IH, map_app.
Qed.

Lemma rmatch_shift ic k r : forall st,
  anchor_free r -> rmatch ic r (shift k st) = map (shift k) (rmatch ic r st).
Proof.
  induction r as [l|p|a IHa b IHb|a IHa b IHb|p|p|a IHa|n a IHa|];
    intros st HF; simpl in HF.
  - destruct st as [pos [|c s] g]; unfold shift; simpl; [reflexivity|].
    unfold advance. simpl. destruct (N.eqb _ _); [|reflexivity].
    simpl. unfold shift. simpl. now rewrite Nat.add_succ_r.
  - destruct st as [pos [|c s] g]; unfold shift; simpl; [reflexivity|].
    unfold advance. simpl. destruct (p _); [|reflexivity].
    simpl. unfold shift. simpl. now rewrite Nat.add_succ_r.
  - destruct HF as [Fa Fb]. simpl. rewrite IHa by assumption.
    apply flat_map_shift. intros st'. now apply IHb.
  - destruct HF as [Fa Fb]. simpl.
    now rewrite IHa, IHb, map_app by assumption.
  - simpl. apply star_from_shift.
  - destruct st as [pos [|c s] g]; unfold shift; simpl; [reflexivity|].
    unfold advance. simpl. destruct (p _); [|reflexivity].
    rewrite <- Nat.add_succ_r. apply star_from_shift.
  - simpl. rewrite IHa, map_app by assumption. reflexivity.
  - simpl. rewrite IHa, !map_map by assumption. apply map_ext.
    intros st'. unfold shift. cbn -[Nat.sub].
    replace (k + m_pos st' - (k + m_pos st)) with (m_pos st' - m_pos st)
      by lia.
    reflexivity.
  - contradiction.
Qed.

Lemma match_here_shift ic r k pos s :
  anchor_free r ->
  match_here ic r (k + pos) s
  = option_map (fun m => ReMatch (k + mt_start m) (mt_text m) (mt_groups m))
               (match_here ic r pos s).
Proof.
  intros HF. unfold match_here.
  change (MState (k + pos) s []) with (shift k (MState pos s [])).
  rewrite rmatch_shift by assumption.
  destruct (rmatch ic r (MState pos s [])) as [|st tl]; simpl; [reflexivity|].
  do 3 f_equal. lia.
Qed.

(** A substitution with a pattern without [^] gives the same text wherever
    the subject is taken to start. *)
Lemma sub_from_shift ic r repl k : anchor_free r -> forall s pos skip,
  sub_from ic r repl (k + pos) skip s = sub_from ic r repl pos skip s.
Proof.
  intros HF. induction s as [|c s IH]; intros pos skip; simpl; [reflexivity|].
  rewrite match_here_shift by assumption.
  destruct skip as [|n].
  - destruct (match_here ic r pos (c :: s)) as [m|]; simpl.
    + destruct (length (mt_text m)); now rewrite <- Nat.add_succ_r, IH.
    + now rewrite <- Nat.add_succ_r, IH.
  - now rewrite <- Nat.add_succ_r, IH.
Qed.

Lemma sub_from_any_pos ic r repl pos pos' skip s :
  anchor_free r ->
  sub_from ic r repl pos skip s = sub_from ic r repl pos' skip s.
Proof.
  intros HF.
  transitivity (sub_from ic r repl 0 skip s).
  - pose proof (@sub_from_shift ic r repl pos HF s 0 skip) as H.
    now rewrite Nat.add_0_r in H.
  - pose proof (@sub_from_shift ic r repl pos' HF s 0 skip) as H.
    now rewrite Nat.add_0_r in H.
Qed.

(** Stepping over characters that belong to a match. *)
Lemma sub_from_skip ic r repl : forall u v pos,
  sub_from ic r repl pos (length u) (u ++ v)
  = sub_from ic r repl (pos + length u) 0 v.
Proof.
  induction u as [|c u IH]; intros v pos; simpl.
  - now rewrite Nat.add_0_r.
  - rewrite IH. now rewrite Nat.add_succ_r.
Qed.

(** Before the first occurrence of its first literal a pattern finds
    nothing. *)
Lemma sub_from_prefix_miss l r repl : forall a x pos,
  Forall (fun c => c <> l) a ->
  sub_from false (Cat (Lit l) r) repl pos 0 (a ++ x)
  = a ++ sub_from false (Cat (Lit l) r) repl (pos + length a) 0 x.
Proof.
  induction a as [|c a IH]; intros x pos H; simpl.
  - now rewrite Nat.add_0_r.
  - inversion H; subst.
    assert (M : match_here false (Cat (Lit l) r) pos (c :: a ++ x) = None).
    { apply match_here_None. cbn [rmatch]. unfold advance. simpl.
      now destruct (N.eqb_spec c l). }
    rewrite M, IH by assumption. now rewrite Nat.add_succ_r.
Qed.

(** ** Escape sequences *)

Lemma run_length_app ic p : forall u y v,
  forallb (holds ic p) u = true -> holds ic p y = false ->
  run_length ic p (u ++ y :: v) = length u.
Proof.
  induction u as [|c u IH]; intros y v Hu Hy; simpl.
  - now rewrite Hy.
  - simpl in Hu. apply andb_true_iff in Hu as [Hc Hu]. rewrite Hc.
    f_equal. now apply IH.
Qed.

Lemma run_length_all ic p : forall u,
  forallb (holds ic p) u = true -> run_length ic p u = length u.
Proof.
  induction u as [|c u IH]; intros Hu; simpl; [reflexivity|].
  simpl in Hu. apply andb_true_iff in Hu as [Hc Hu]. rewrite Hc.
  f_equal. now apply IH.
Qed.

Lemma letter_not_csi_param c :
  is_ascii_letter c = true -> is_csi_param c = false.
Proof.
  intros H. unfold is_csi_param, one_of. simpl existsb.
  unfold ch. simpl N_of_ascii. char_facts.
Qed.

(** At [ESC [ params letter] the first pattern matches exactly that
    sequence. *)
Lemma csi_match_here pos params L b :
  forallb is_csi_param params = true -> is_ascii_letter L = true ->
  exists m, match_here false csi_re pos
              (ESC :: ch "[" :: params ++ L :: b) = Some m /\
            length (mt_text m) = 3 + length params.
Proof.
  intros Hp HL. unfold match_here, csi_re. cbn [rmatch].
  unfold advance. cbn [m_rest m_pos m_groups].
  change (N.eqb (fold_case false ESC) (fold_case false ESC)) with true.
  cbn [flat_map app m_rest m_pos m_groups].
  change (N.eqb (fold_case false (ch "[")) (fold_case false (ch "[")))
    with true.
  cbn [flat_map app m_rest m_pos m_groups].
  destruct (star_from_head false is_csi_param (S (S pos))
              (params ++ L :: b) []) as [tl ->].
  rewrite (run_length_app false is_csi_param params L b Hp)
    by (unfold holds; simpl; now apply letter_not_csi_param).
  rewrite skipn_app, skipn_all, Nat.sub_diag. cbn [skipn app flat_map].
  cbn [fold_case m_rest]. rewrite HL. cbn [app].
  eexists. split; [reflexivity|]. cbn [mt_text m_pos].
  rewrite length_firstn. simpl length. rewrite length_app. simpl length.
  lia.
Qed.

Lemma csi_sub_sequence a params L b :
  forallb not_esc a = true ->
  forallb is_csi_param params = true -> is_ascii_letter L = true ->
  re_sub false csi_re [] (a ++ ESC :: ch "[" :: params ++ L :: b)
  = re_sub false csi_re [] (a ++ b).
Proof.
  intros Ha Hp HL. apply forallb_not_esc in Ha.
  unfold re_sub, csi_re. rewrite !sub_from_prefix_miss by assumption.
  f_equal.
  change (Lit ESC ~ Lit (ch "[") ~ Star is_csi_param ~ Cls is_ascii_letter)%re
    with csi_re.
  cbn [sub_from].
  destruct (csi_match_here (0 + length a) params L b Hp HL) as (m & -> & ->).
  cbn [Nat.add app].
  replace (params ++ L :: b) with ((params ++ [L]) ++ b)
    by now rewrite <- app_assoc.
  replace (S (length params)) with (length (params ++ [L]))
    by (rewrite length_app; simpl; lia).
  rewrite sub_from_skip. apply sub_from_any_pos. vm_compute. tauto.
Qed.

(** X6: a control sequence [ESC [ params letter] (colours, cursor moves)
    that follows text without escape characters is invisible to the parser:
    the result is the same as without the sequence. *)
Theorem csi_sequence_invisible (a params : str) (L : char) (b : str) :
  forallb not_esc a = true ->
  forallb is_csi_param params = true -> is_ascii_letter L = true ->
  parse_usage (a ++ ESC :: ch "[" :: params ++ L :: b) = parse_usage (a ++ b).
Proof.
  intros Ha Hp HL. unfold parse_usage, clean_text, strip_escapes.
  now rewrite csi_sub_sequence.
Qed.

Lemma csi_sequence_invisible_witness :
  parse_usage (s2l "Current session " ++ ESC :: ch "[" :: s2l "1;31" ++
               ch "m" :: s2l "45%")
  = parse_usage (s2l "Current session " ++ s2l "45%").
Proof.
  apply (csi_sequence_invisible (s2l "Current session ") (s2l "1;31")
           (ch "m") (s2l "45%")); reflexivity.
Defined.

Lemma osc_introducer_facts x :
  one_of "<>=]" x = true -> x <> ESC /\ N.eqb x (ch "[") = false.
Proof.
  unfold one_of. simpl existsb. unfold ch. simpl N_of_ascii.
  intros H. split; [intros ->; discriminate|]. char_facts.
Qed.

Lemma sub_from_miss_step ic r repl pos c s :
  match_here ic r pos (c :: s) = None ->
  sub_from ic r repl pos 0 (c :: s) = c :: sub_from ic r repl (S pos) 0 s.
Proof. intros H. simpl. now rewrite H. Qed.

Lemma sub_from_match_step ic r repl pos c s m k :
  match_here ic r pos (c :: s) = Some m -> length (mt_text m) = S k ->
  sub_from ic r repl pos 0 (c :: s) = repl ++ sub_from ic r repl (S pos) k s.
Proof. intros H L. simpl. now rewrite H, L. Qed.

(** [ESC] not followed by an opening bracket does not start a match of the
    first pattern. *)
Lemma csi_no_match pos x body :
  N.eqb x (ch "[") = false ->
  match_here false csi_re pos (ESC :: x :: body) = None.
Proof.
  intros Hx. unfold match_here, csi_re. cbn [rmatch].
  unfold advance. cbn [m_rest m_pos m_groups].
  change (N.eqb (fold_case false ESC) (fold_case false ESC)) with true.
  cbn [flat_map app m_rest m_pos m_groups fold_case].
  now rewrite Hx.
Qed.

(** At [ESC] followed by an introducer the second pattern matches up to the
    next [ESC], or to the end of the text. *)
Lemma osc_match_here pos x body :
  one_of "<>=]" x = true -> forallb not_esc body = true ->
  exists m, match_here false osc_re pos (ESC :: x :: body) = Some m /\
            length (mt_text m) = S (length (x :: body)).
Proof.
  intros Hx Hb. unfold match_here, osc_re. cbn [rmatch].
  unfold advance. cbn [m_rest m_pos m_groups].
  change (N.eqb (fold_case false ESC) (fold_case false ESC)) with true.
  cbn [flat_map app m_rest m_pos m_groups fold_case].
  rewrite Hx. cbn [flat_map app m_rest m_pos m_groups].
  destruct (star_from_head false not_esc (S (S pos)) body []) as [tl ->].
  eexists. split; [reflexivity|]. cbn [mt_text m_pos].
  rewrite (run_length_all false not_esc body) by exact Hb.
  rewrite length_firstn. simpl length. lia.
Qed.

Lemma osc_sub_rest a x body :
  forallb not_esc a = true -> one_of "<>=]" x = true ->
  forallb not_esc body = true ->
  strip_escapes (a ++ ESC :: x :: body) = a.
Proof.
  intros Ha Hx Hb. pose proof Hb as Hb'.
  apply forallb_not_esc in Ha, Hb.
  destruct (osc_introducer_facts _ Hx) as [Hx1 Hx2].
  unfold strip_escapes.
  assert (E1 : re_sub false csi_re [] (a ++ ESC :: x :: body)
               = a ++ ESC :: x :: body).
  { unfold re_sub, csi_re. rewrite sub_from_prefix_miss by assumption.
    f_equal.
    change (Lit ESC ~ Lit (ch "[") ~ Star is_csi_param
            ~ Cls is_ascii_letter)%re with csi_re.
    rewrite (@sub_from_miss_step false csi_re [] _ ESC (x :: body)
               (@csi_no_match _ x body Hx2)).
    f_equal.
    unfold csi_re. apply sub_from_lit_miss. now constructor. }
  rewrite E1. unfold re_sub, osc_re.
  rewrite sub_from_prefix_miss by assumption.
  change (Lit ESC ~ Cls (one_of "<>=]") ~ Star not_esc)%re with osc_re.
  destruct (@osc_match_here (0 + length a) x body Hx Hb') as (m & Hm & Lm).
  rewrite (@sub_from_match_step false osc_re [] _ ESC (x :: body) m _ Hm Lm).
  cbn [app].
  pose proof (sub_from_skip false osc_re [] (x :: body) []
                (S (0 + length a))) as K.
  rewrite app_nil_r in K. rewrite K. apply app_nil_r.
Qed.

(** X7: after text without escape characters, [ESC] followed by one of
    [<], [>], [=], or the closing bracket, swallows everything up to the
    next [ESC]; when no [ESC] follows, the rest of the transcript, newlines
    and usage data included, is discarded. *)
Theorem unterminated_escape_discards_rest (a : str) (x : char) (body : str) :
  forallb not_esc a = true -> one_of "<>=]" x = true ->
  forallb not_esc body = true ->
  parse_usage (a ++ ESC :: x :: body) = parse_usage a.
Proof.
  intros Ha Hx Hb. unfold parse_usage.
  rewrite !clean_text_eq, osc_sub_rest by assumption.
  rewrite strip_escapes_noesc by now apply forallb_not_esc.
  reflexivity.
Qed.

Lemma unterminated_escape_discards_rest_witness :
  parse_usage (s2l "Claude" ++ ESC :: ch "]" ::
               unlines ["0;title"; "Current session"; "45%"]%string)
  = parse_usage (s2l "Claude").
Proof.
  apply (unterminated_escape_discards_rest (s2l "Claude") (ch "]")
           (unlines ["0;title"; "Current session"; "45%"]%string));
    reflexivity.
Defined.

(** ** The shape of the session reset text *)

Ltac char_lia :=
  unfold is_digit, is_space, is_sp, colon_or_digit, in_range in *;
  repeat rewrite ?orb_true_iff, ?andb_true_iff, ?N.leb_le, ?N.eqb_eq in *;
  lia.

Lemma lower_char_cases c :
  lower_char c = c \/ ((65 <= c <= 90)%N /\ lower_char c = (c + 32)%N).
Proof.
  unfold lower_char, in_range.
  destruct (N.leb_spec 65 c), (N.leb_spec c 90); simpl; auto.
Qed.

Lemma lower_char_digit c : is_digit (lower_char c) = true -> is_digit c = true.
Proof.
  destruct (lower_char_cases c) as [->|[Hc ->]]; [auto|].
  intros H. exfalso. char_lia.
Qed.

Lemma lower_char_space c : is_space (lower_char c) = true -> is_space c = true.
Proof.
  destruct (lower_char_cases c) as [->|[Hc ->]]; [auto|].
  intros H. exfalso. char_lia.
Qed.

Lemma lower_char_colon c : N.eqb (lower_char c) (ch ":") = true -> c = ch ":".
Proof.
  unfold ch. simpl N_of_ascii. rewrite N.eqb_eq.
  destruct (lower_char_cases c) as [->|[Hc ->]]; [auto|lia].
Qed.

Lemma lower_m_not_space y : lower_char y = ch "m" -> is_space y = false.
Proof.
  unfold ch. simpl N_of_ascii. intros H.
  destruct (is_space y) eqn:E; [|reflexivity]. exfalso.
  destruct (lower_char_cases y) as [Hy|[Hc Hy]]; rewrite Hy in H;
    [subst y; discriminate E|].
  char_lia.
Qed.

Lemma holds_Forall ic p (Q : char -> Prop) run :
  (forall c, holds ic p c = true -> Q c) ->
  forallb (holds ic p) run = true -> Forall Q run.
Proof.
  intros HQ H. rewrite forallb_forall in H. apply Forall_forall. auto.
Qed.

(** What the group of the session reset pattern captures. *)
Lemma session_group_shape st st' :
  In st' (rmatch true
            (Plus is_digit ~ Star colon_or_digit ~ Star is_space ~
             Cls (one_of "ap") ~ Lit (ch "m") ~ Star not_rparen_nl)%re st) ->
  exists d mid x y tl,
    m_rest st = (d :: mid ++ x :: y :: tl) ++ m_rest st' /\
    is_digit d = true /\
    Forall (fun c => is_digit c = true \/ c = ch ":" \/ is_space c = true)
           mid /\
    one_of "ap" (lower_char x) = true /\ lower_char y = ch "m".
Proof.
  intros H.
  apply in_rmatch_Cat in H as (s1 & H1 & H).
  apply in_rmatch_Cat in H as (s2 & H2 & H).
  apply in_rmatch_Cat in H as (s3 & H3 & H).
  apply in_rmatch_Cat in H as (s4 & H4 & H).
  apply in_rmatch_Cat in H as (s5 & H5 & H).
  apply in_rmatch_Plus in H1 as (d & run & r1 & E1 & Hd & Hrun & ->).
  apply in_star_from in H2 as (cd & r2 & E2 & Hcd & ->).
  apply in_star_from in H3 as (ws & r3 & E3 & Hws & ->).
  apply in_rmatch_Cls in H4 as (x & r4 & E4 & Hx & ->).
  apply in_rmatch_Lit in H5 as (y & r5 & E5 & Hy & ->).
  apply in_star_from in H as (tl & r6 & E6 & _ & ->).
  cbn [m_rest] in *. subst r1 r2 r3 r4 r5.
  exists d, (run ++ cd ++ ws), x, y, tl. repeat split.
  - rewrite E1. simpl. now rewrite <- !app_assoc.
  - now apply lower_char_digit.
  - apply Forall_app; split; [|apply Forall_app; split].
    + eapply holds_Forall; [|exact Hrun]. intros c Hc. left.
      now apply lower_char_digit.
    + eapply holds_Forall; [|exact Hcd]. intros c Hc.
      unfold holds, colon_or_digit in Hc. apply orb_true_iff in Hc as [Hc|Hc].
      * right. left. now apply lower_char_colon.
      * left. now apply lower_char_digit.
    + eapply holds_Forall; [|exact Hws]. intros c Hc. right. right.
      now apply lower_char_space.
  - exact Hx.
  - exact Hy.
Qed.

Lemma session_reset_at_shape l v :
  session_reset_at l = Ret (Some v) -> clock_like v.
Proof.
  unfold session_reset_at.
  destruct (re_search true session_reset_re l) as [m|] eqn:E; [|discriminate].
  apply search_from_Some in E as (a & b & -> & Hm & _).
  apply match_here_Some in Hm as (st & Hin & ->).
  unfold session_reset_re in Hin.
  apply in_rmatch_Cat in Hin as (s1 & _ & Hin).
  apply in_rmatch_Cat in Hin as (s2 & _ & Hin).
  apply in_rmatch_Cat in Hin as (s3 & _ & Hin).
  destruct (in_rmatch_Grp true (fun _ => True) 1 _ _ _
              (accepts_only_True true _) Hin)
    as (w & g & Ew & _ & _ & Hbody & Hg).
  apply session_group_shape in Hbody
    as (d & mid & x & y & tl & Eb & Hd & Hmid & Hx & Hy).
  cbn [m_rest] in Eb. rewrite Ew in Eb. apply app_inv_tail in Eb. subst w.
  unfold group. cbn [mt_groups]. rewrite Hg. simpl assoc. simpl.
  intros [= <-].
  exists d, mid, x, y, (rstrip tl). repeat split; try assumption.
  unfold strip. simpl lstrip. rewrite (digit_not_space _ Hd).
  replace (d :: mid ++ x :: y :: tl) with ((d :: mid ++ [x]) ++ y :: tl)
    by (simpl; now rewrite <- app_assoc).
  rewrite rstrip_app_nonspace by now apply lower_m_not_space.
  simpl. now rewrite <- app_assoc.
Qed.

(** X8: the [session_reset] field of a record [parse_usage] returns is empty
    or has the shape of a clock time: it starts with a digit, continues with
    digits, colons and whitespace, and then has [am] or [pm] in either
    letter case. *)
Theorem session_reset_clock_like (text : str) (r : usage) :
  parse_usage text = Ret r ->
  session_reset r = [] \/ clock_like (session_reset r).
Proof.
  intros E. apply parse_usage_Ret in E. subst r.
  apply (field_invariant _ _ _ (session_reset_step _)
           (fun v => v = [] \/ clock_like v)).
  - now left.
  - intros i v H. right. apply hit_Some in H as (j & l & _ & _ & Hv).
    now apply session_reset_at_shape in Hv.
Qed.

Lemma session_reset_clock_like_witness :
  exists r : usage,
    parse_usage session_scenario = Ret r /\
    session_reset r = s2l "3:00pm (America/NY" /\
    (session_reset r = [] \/ clock_like (session_reset r)).
Proof.
  eexists. split; [vm_compute; reflexivity|].
  split; [reflexivity|].
  apply (session_reset_clock_like session_scenario).
  vm_compute. reflexivity.
Defined.

(** * The executable locator and the entry point *)

(** ** Properties of [find_claude_cli] *)

Lemma first_executable_None isfile access_x paths :
  first_executable isfile access_x paths = None <->
  forall p, In p paths -> (isfile p && access_x p)%bool = false.
Proof.
  induction paths as [|q paths IH]; simpl.
  - split; [intros _ p []|reflexivity].
  - destruct (isfile q && access_x q)%bool eqn:E.
    + split; [discriminate|]. intros H.
      specialize (H q (or_introl eq_refl)). congruence.
    + rewrite IH. split.
      * intros H p [<-|Hp]; auto.
      * intros H p Hp. apply H. now right.
Qed.

Lemma first_executable_Some isfile access_x paths p :
  first_executable isfile access_x paths = Some p ->
  exists before after,
    paths = before ++ p :: after /\
    isfile p = true /\ access_x p = true /\
    forall q, In q before -> (isfile q && access_x q)%bool = false.
Proof.
  induction paths as [|q paths IH]; simpl; [discriminate|].
  destruct (isfile q && access_x q)%bool eqn:E.
  - intros [= <-]. apply andb_true_iff in E as [E1 E2].
    exists [], paths. repeat split; try assumption. intros x [].
  - intros H. destruct (IH H) as (before & after & -> & H1 & H2 & H3).
    exists (q :: before), after. repeat split; try assumption.
    intros x [<-|Hx]; auto.
Qed.

Lemma possible_paths_nonempty home p : In p (possible_paths home) -> p <> [].
Proof.
  unfold possible_paths.
  intros [<-|[<-|[<-|[<-|[<-|[]]]]]]; try discriminate;
    destruct home; discriminate.
Qed.

(** X9: [find_claude_cli] returns [None] exactly when [shutil.which] finds
    nothing and none of the five candidate paths is an executable file. *)
Theorem find_claude_cli_none (which_claude : option str) (home : str)
    (isfile access_x : str -> bool) :
  find_claude_cli which_claude home isfile access_x = None <->
  truthy which_claude = false /\
  forall p, In p (possible_paths home) ->
            (isfile p && access_x p)%bool = false.
Proof.
  unfold find_claude_cli. destruct (truthy which_claude) eqn:T.
  - split.
    + intros ->. discriminate T.
    + intros [H _]. discriminate H.
  - rewrite first_executable_None. split; [now split|now intros [_ H]].
Qed.

(** X10: a path [find_claude_cli] returns is never empty; it is the result
    of [shutil.which] when that is not empty, and otherwise the first of the
    five candidates, in their order, that is a file and executable. *)
Theorem find_claude_cli_some (which_claude : option str) (home : str)
    (isfile access_x : str -> bool) (p : str) :
  find_claude_cli which_claude home isfile access_x = Some p ->
  p <> [] /\
  (which_claude = Some p \/
   (truthy which_claude = false /\
    exists before after,
      possible_paths home = before ++ p :: after /\
      isfile p = true /\ access_x p = true /\
      forall q, In q before -> (isfile q && access_x q)%bool = false)).
Proof.
  unfold find_claude_cli. destruct (truthy which_claude) eqn:T.
  - intros ->. split; [|now left].
    simpl in T. destruct p; [discriminate T|discriminate].
  - intros H.
    destruct (first_executable_Some _ _ _ H)
      as (before & after & E & H1 & H2 & H3).
    split.
    + apply (@possible_paths_nonempty home). rewrite E.
      apply in_or_app. right. now left.
    + right. split; [reflexivity|]. now exists before, after.
Qed.

Lemma find_claude_cli_some_witness :
  let isfile p := existsb (fun q => starts_with p q && starts_with q p)%bool
                    [s2l "/usr/local/bin/claude"; s2l "/usr/bin/claude"] in
  s2l "/usr/local/bin/claude" <> [] /\
  (None = Some (s2l "/usr/local/bin/claude") \/
   (truthy None = false /\
    exists before after,
      possible_paths (s2l "/home/u") = before ++ s2l "/usr/local/bin/claude"
                                          :: after /\
      isfile (s2l "/usr/local/bin/claude") = true /\
      (fun _ : str => true) (s2l "/usr/local/bin/claude") = true /\
      forall q, In q before ->
                (isfile q && (fun _ : str => true) q)%bool = false)).
Proof.
  intros isfile.
  apply (@find_claude_cli_some None (s2l "/home/u") isfile (fun _ => true)
           (s2l "/usr/local/bin/claude")).
  vm_compute. reflexivity.
Defined.

(** ** Properties of [main] *)

Lemma is_pr_spec c : is_pr c = true <-> (32 <= c <= 126)%N.
Proof.
  unfold is_pr, in_range. rewrite andb_true_iff, !N.leb_le. tauto.
Qed.

Lemma hex_digit_pr n : (n < 16)%N -> is_pr (hex_digit n) = true.
Proof.
  intros H. apply is_pr_spec. unfold hex_digit.
  destruct (N.ltb_spec n 10); lia.
Qed.

Lemma u_escape_pr n : forallb is_pr (u_escape n) = true.
Proof.
  unfold u_escape, hex4. cbn [forallb].
  rewrite !hex_digit_pr by (apply N.mod_lt; discriminate). reflexivity.
Qed.

Lemma json_escape_char_pr c : forallb is_pr (json_escape_char c) = true.
Proof.
  unfold json_escape_char.
  repeat match goal with
         | |- context [if N.eqb ?a ?b then _ else _] =>
             destruct (N.eqb a b); [reflexivity|]
         end.
  destruct (in_range 32 126 c) eqn:E.
  - simpl. unfold is_pr. now rewrite E.
  - destruct (N.ltb c 65536); [apply u_escape_pr|].
    cbv zeta. rewrite forallb_app, !u_escape_pr. reflexivity.
Qed.

Lemma json_string_pr s : forallb is_pr (json_string s) = true.
Proof.
  unfold json_string. cbn [forallb]. rewrite forallb_app.
  change (is_pr 34%N) with true. cbn [forallb andb].
  rewrite andb_true_r.
  induction s as [|c s IH]; simpl; [reflexivity|].
  now rewrite forallb_app, json_escape_char_pr, IH.
Qed.

Lemma uint_str_pr u : forallb is_pr (uint_str u) = true.
Proof. induction u; simpl; try assumption; reflexivity. Qed.

Lemma json_int_pr z : forallb is_pr (json_int z) = true.
Proof.
  unfold json_int. destruct (Z.to_int z); simpl; apply uint_str_pr.
Qed.

Lemma json_item_pr kv : forallb is_pr (json_item kv) = true.
Proof.
  unfold json_item. rewrite !forallb_app, json_string_pr.
  destruct (snd kv); simpl json_value;
    [rewrite json_int_pr|rewrite json_string_pr]; reflexivity.
Qed.

Lemma json_dumps_pr kvs : forallb is_pr (json_dumps kvs) = true.
Proof.
  unfold json_dumps. cbn [forallb]. rewrite forallb_app.
  change (is_pr (ch "{")) with true. cbn [forallb andb].
  change (is_pr (ch "}")) with true. rewrite andb_true_r.
  induction kvs as [|kv kvs IH]; [reflexivity|].
  destruct kvs as [|kv' kvs]; [apply json_item_pr|].
  change (json_items (kv :: kv' :: kvs))
    with (json_item kv ++ s2l ", " ++ json_items (kv' :: kvs)).
  now rewrite !forallb_app, json_item_pr, IH.
Qed.

(** X11: [main] ends with exit status 0 exactly when [get_usage] returns a
    transcript and [parse_usage] returns a record for it; it has then
    printed the JSON object of that record.  When [parse_usage] raises,
    which it does with [ValueError] only, [main] prints an error object
    that starts with "Unexpected error: " and ends with status 1, as it does
    for an exception of [get_usage] that is an [Exception].  An exception of
    [get_usage] that is not an [Exception] is the only thing that leaves
    [main] uncaught.  (Writing to standard output is taken to succeed.) *)
Theorem main_exit_status (describe : pyexn -> str) (got : get_usage_outcome) :
  (forall out,
      main describe got = Exits out 0 <->
      exists text r, got = Transcript text /\ parse_usage text = Ret r /\
                     out = json_dumps (result_dict r) ++ [NL]) /\
  (forall text e,
      got = Transcript text -> parse_usage text = Raise e ->
      e = ValueError /\
      main describe got
      = Exits (json_dumps
                 (error_dict (s2l "Unexpected error: " ++ describe ValueError))
               ++ [NL]) 1) /\
  (forall out status,
      main describe got = Exits out status -> status = 0%Z \/ status = 1%Z) /\
  (main describe got = Escapes <-> got = NonException).
Proof.
  split; [|split; [|split]].
  - intros out. split.
    + destruct got as [text|msg|msg|]; simpl; try discriminate.
      destruct (parse_usage text) as [r|e] eqn:E; [|discriminate].
      intros [= <-]. now exists text, r.
    + intros (text & r & -> & E & ->). simpl. now rewrite E.
  - intros text e -> E. pose proof (parse_usage_Raise _ E) as ->.
    split; [reflexivity|]. simpl. now rewrite E.
  - intros out status.
    destruct got as [text|msg|msg|]; simpl; try discriminate;
      [destruct (parse_usage text)|..]; intros [= _ <-]; auto.
  - split.
    + destruct got as [text|msg|msg|]; simpl; try discriminate;
        [destruct (parse_usage text); discriminate|reflexivity].
    + now intros ->.
Qed.

Lemma main_exit_status_witness :
  let describe := fun _ : pyexn => s2l "Exceeds the limit (4300 digits)" in
  (exists r : usage,
     parse_usage (s2l "Sonnet only 7%") = Ret r /\
     main describe (Transcript (s2l "Sonnet only 7%"))
     = Exits (json_dumps (result_dict r) ++ [NL]) 0) /\
  main describe
    (Transcript (s2l "Current session" ++ NL :: repeat (ch "1") 4301
                 ++ [ch "%"]))
  = Exits (json_dumps
             (error_dict
                (s2l "Unexpected error: Exceeds the limit (4300 digits)"))
           ++ [NL]) 1.
Proof.
  intros describe. split.
  - eexists. split; [vm_compute; reflexivity|].
    apply (proj1 (main_exit_status describe
                    (Transcript (s2l "Sonnet only 7%")))).
    eexists. eexists. split; [reflexivity|].
    split; [vm_compute; reflexivity|reflexivity].
  - apply (proj1 (proj2 (main_exit_status describe
             (Transcript (s2l "Current session" ++ NL ::
                          repeat (ch "1") 4301 ++ [ch "%"]))))
             _ ValueError eq_refl).
    vm_compute. reflexivity.
Defined.

(** X12: unless [get_usage] ends with an exception that is not an
    [Exception], [main] prints exactly one line, made of printable ASCII
    characters only, and exits.  (Writing to standard output is taken to
    succeed.) *)
Theorem main_prints_one_ascii_line (describe : pyexn -> str)
    (got : get_usage_outcome) :
  got <> NonException ->
  exists line status,
    main describe got = Exits (line ++ [NL]) status /\
    Forall (fun c => (32 <= c <= 126)%N) line.
Proof.
  intros Hgot.
  assert (H : forall kvs, Forall (fun c => (32 <= c <= 126)%N)
                                 (json_dumps kvs)).
  { intros kvs. apply Forall_forall. intros c Hc. apply is_pr_spec.
    pose proof (json_dumps_pr kvs) as F. rewrite forallb_forall in F.
    now apply F. }
  unfold main. destruct got as [text|msg|msg|].
  - destruct (parse_usage text) as [r|e]; eexists; eexists; split;
      try reflexivity; apply H.
  - eexists. eexists. split; [reflexivity|apply H].
  - eexists. eexists. split; [reflexivity|apply H].
  - congruence.
Qed.

Lemma main_prints_one_ascii_line_witness :
  exists line status,
    main (fun _ => []) (FileNotFound (233%N :: s2l " not found"))
    = Exits (line ++ [NL]) status /\
    Forall (fun c => (32 <= c <= 126)%N) line.
Proof.
  apply (main_prints_one_ascii_line (fun _ => [])
           (got := FileNotFound (233%N :: s2l " not found"))).
  discriminate.
Defined.

(** * More on the loop of [parse_usage] *)

(** ** The Sonnet scenario *)

(** X13: for a text whose cleaned lines contain the two lines "Sonnet only"
    and " 7%" in sequence, with no line containing "sonnet only" after
    them, and in which the digits that a percent scan reaches are at most
    4300 ([convertible]), [sonnet_percent] is 7. *)
Theorem sonnet_scenario_parsed (text : str) (L1 L2 : list str) :
  clean_lines text = L1 ++ [s2l "Sonnet only"; s2l " 7%"] ++ L2 ->
  (forall l, In l L2 -> is_sonnet_header (lower (strip l)) = false) ->
  convertible (clean_lines text) ->
  exists r : usage,
    parse_usage text = Ret r /\ sonnet_percent r = 7%Z.
Proof.
  intros E Hhdr HC.
  eexists. split; [apply parse_usage_eq; exact HC|]. rewrite E.
  cbn [app].
  apply (field_after_header percent_at is_sonnet_header 3).
  - intros. apply sonnet_percent_step.
  - apply (hit_window_first percent_at is_sonnet_header L1 _ _
             (n := 1) (l := s2l " 7%"));
      [reflexivity|lia|reflexivity|reflexivity|window_prefix_empty].
  - intros l [<-|Hl]; [reflexivity|]. now apply Hhdr.
Qed.

Lemma sonnet_scenario_parsed_witness :
  exists r : usage,
    parse_usage (s2l "Current week (all models) 12%" ++ [NL]
                 ++ ESC :: s2l "[1m" ++ sonnet_scenario
                 ++ NL :: s2l "Esc to cancel") = Ret r /\
    sonnet_percent r = 7%Z.
Proof.
  apply (sonnet_scenario_parsed
           (s2l "Current week (all models) 12%" ++ [NL]
            ++ ESC :: s2l "[1m" ++ sonnet_scenario
            ++ NL :: s2l "Esc to cancel")
           [s2l "Current week (all models) 12%"] [s2l "Esc to cancel"]).
  - vm_compute. reflexivity.
  - apply not_header_forallb. vm_compute. reflexivity.
  - apply convertibleb_sound. vm_compute. reflexivity.
Defined.

(** ** The last header with a match decides *)

Lemma range_split i n :
  i < n -> range 0 n = seq 0 i ++ i :: seq (S i) (n - S i).
Proof.
  intros H. unfold range. rewrite Nat.sub_0_r.
  replace n with (i + S (n - S i)) at 1 by lia.
  now rewrite seq_app.
Qed.

(** X14: in a text in which the digits that a percent scan reaches are at
    most 4300 ([convertible]), when the header line at index [i] yields a
    value for a percent field and no later header line of the section
    yields one, the field has that value: header lines whose window has no
    match leave the field as it is, and header lines before [i] do not
    matter. *)
Theorem last_header_with_match_decides (text : str) (sec : section)
    (i : nat) (v : Z) :
  convertible (clean_lines text) ->
  hit percent_at (header_of sec) 3 (clean_lines text) i = Some v ->
  (forall j, i < j ->
             hit percent_at (header_of sec) 3 (clean_lines text) j = None) ->
  exists r : usage, parse_usage text = Ret r /\ percent_of sec r = v.
Proof.
  intros HC Hi Hlater.
  eexists. split; [apply parse_usage_eq; exact HC|].
  assert (Hlen : i < length (clean_lines text)).
  { unfold hit in Hi.
    destruct (nth_error (clean_lines text) i) eqn:E; [|discriminate].
    apply nth_error_Some. congruence. }
  rewrite (range_split Hlen).
  apply (field_last _ _ _ (percent_of_step sec _) _ _ _ _ Hi).
  intros j Hj. apply in_seq in Hj. apply Hlater. lia.
Qed.

Lemma last_header_with_match_decides_witness :
  exists r : usage,
    parse_usage (unlines ["Current session 10%"; "Current session";
                          "loading"]%string) = Ret r /\
    session_percent r = 10%Z.
Proof.
  apply (last_header_with_match_decides
           (unlines ["Current session 10%"; "Current session";
                     "loading"]%string) Session (i := 0) (v := 10%Z)).
  - apply convertibleb_sound. vm_compute. reflexivity.
  - vm_compute. reflexivity.
  - intros j Hj.
    destruct j as [|[|[|j]]]; [lia|vm_compute; reflexivity
                              |vm_compute; reflexivity|].
    unfold hit.
    replace (nth_error _ (S (S (S j)))) with (@None str); [reflexivity|].
    symmetry. apply nth_error_None. vm_compute. lia.
Defined.

(** ** When [parse_usage] returns *)

(** X17: [parse_usage] returns a record exactly for the texts whose cleaned
    lines are [convertible]: in the three-line window of every header line,
    the first line with digits, optional whitespace and a percent sign has
    at most 4300 digits in its leftmost occurrence.  For every other text
    it raises [ValueError]. *)
Theorem parse_usage_returns_iff_convertible (text : str) :
  ((exists r : usage, parse_usage text = Ret r)
   <-> convertible (clean_lines text)) /\
  (~ convertible (clean_lines text) -> parse_usage text = Raise ValueError).
Proof.
  split; [split|].
  - intros [r E]. apply (parse_usage_Ret_convertible _ E).
  - intros HC. eexists. apply parse_usage_eq. exact HC.
  - intros HC. destruct (parse_usage text) as [r|e] eqn:E.
    + destruct HC. apply (parse_usage_Ret_convertible _ E).
    + now rewrite (parse_usage_Raise _ E).
Qed.

Lemma parse_usage_returns_iff_convertible_witness :
  (exists r : usage, parse_usage session_scenario = Ret r) /\
  parse_usage (s2l "Sonnet only" ++ NL :: repeat (ch "7") 4301 ++ s2l " %")
  = Raise ValueError.
Proof.
  split.
  - apply (proj1 (parse_usage_returns_iff_convertible session_scenario)).
    apply convertibleb_sound. vm_compute. reflexivity.
  - apply (proj2 (parse_usage_returns_iff_convertible
                    (s2l "Sonnet only" ++ NL :: repeat (ch "7") 4301
                     ++ s2l " %"))).
    intros HC.
    assert (L : clean_lines (s2l "Sonnet only" ++ NL ::
                             repeat (ch "7") 4301 ++ s2l " %")
                = [s2l "Sonnet only"; repeat (ch "7") 4301 ++ s2l " %"])
      by (vm_compute; reflexivity).
    rewrite L in HC.
    assert (Hpc : pct_convertible (repeat (ch "7") 4301 ++ s2l " %")).
    { apply (HC 0 (s2l "Sonnet only") 1); try reflexivity; [lia|].
      intros j' l' Hj' E. destruct j' as [|j']; [|lia].
      injection E as <-. apply percent_at_None. vm_compute. reflexivity. }
    destruct (percent_at_convertible Hpc) as [o Ho].
    vm_compute in Ho. discriminate Ho.
Defined.

(** ** Unprintable characters act as spaces *)

(** X15: in a text without escape characters, a character outside
    [0x20..0x7E] other than the newline (a tab, a carriage return, a
    box-drawing glyph) has the same effect as a space. *)
Theorem unprintable_acts_as_space (a : str) (c : char) (b : str) :
  forallb not_esc a = true -> forallb not_esc b = true ->
  is_unprintable c = true -> c <> ESC ->
  parse_usage (a ++ c :: b) = parse_usage (a ++ SP :: b).
Proof.
  intros Ha Hb Hc Hesc. unfold parse_usage.
  assert (E : clean_text (a ++ c :: b) = clean_text (a ++ SP :: b)).
  { rewrite !clean_text_noesc.
    - rewrite !map_app. simpl map. unfold printable at 2 4.
      rewrite Hc. reflexivity.
    - rewrite forallb_app. simpl. now rewrite Ha, Hb.
    - rewrite forallb_app. simpl. rewrite Ha, Hb.
      unfold not_esc. apply N.eqb_neq in Hesc. now rewrite Hesc. }
  now rewrite E.
Qed.

Lemma unprintable_acts_as_space_witness :
  parse_usage (s2l "Sonnet only" ++ 9%N :: s2l "7%")
  = parse_usage (s2l "Sonnet only" ++ SP :: s2l "7%").
Proof.
  apply (unprintable_acts_as_space (s2l "Sonnet only") (c := 9%N)
           (s2l "7%")); try reflexivity.
  discriminate.
Defined.

(** ** Header detection *)

Lemma lstrip_split s :
  exists w, s = w ++ lstrip s /\ Forall (fun c => is_space c = true) w.
Proof.
  induction s as [|c s (w & E & F)]; simpl.
  - now exists [].
  - destruct (is_space c) eqn:Hc.
    + exists (c :: w). split; [simpl; now rewrite <- E|now constructor].
    + now exists [].
Qed.

(** Stripping removes whitespace only. *)
Lemma strip_split s :
  exists u v, s = u ++ strip s ++ v /\
              Forall (fun c => is_space c = true) u /\
              Forall (fun c => is_space c = true) v.
Proof.
  unfold strip, rstrip.
  destruct (lstrip_split s) as (u & Eu & Fu).
  destruct (lstrip_split (rev (lstrip s))) as (v & Ev & Fv).
  exists u, (rev v). repeat split; [|assumption|now apply Forall_rev].
  rewrite <- rev_app_distr, <- Ev, rev_involutive. exact Eu.
Qed.

Lemma lower_space c : is_space c = true -> is_space (lower_char c) = true.
Proof.
  intros H. destruct (lower_char_cases c) as [->|[Hc _]]; [assumption|].
  exfalso. char_lia.
Qed.

(** A phrase that starts and ends with a character that is not whitespace,
    found in a text, lies inside the text's stripped part. *)
Lemma infix_inside_strip (p U S V a b : str) c p1 p2 d :
  a ++ p ++ b = U ++ S ++ V ->
  Forall (fun c => is_space c = true) U ->
  Forall (fun c => is_space c = true) V ->
  p = c :: p1 -> is_space c = false ->
  p = p2 ++ [d] -> is_space d = false ->
  exists a' b', S = a' ++ p ++ b'.
Proof.
  intros E FU FV Ep Hc Ep' Hd.
  assert (Ha : exists a', a = U ++ a').
  { apply app_eq_app in E as [l [[-> _]|[-> E]]]; [now exists l|].
    destruct l as [|x l]; [exists []; now rewrite !app_nil_r|].
    exfalso. rewrite Ep in E. injection E as <- _.
    apply Forall_app in FU as [_ FU]. inversion FU; subst. congruence. }
  destruct Ha as (a' & ->). rewrite <- app_assoc in E.
  apply app_inv_head in E. rewrite app_assoc in E.
  apply app_eq_app in E as [l [[E1 E2]|[E1 E2]]].
  - destruct l as [|x l].
    + rewrite app_nil_r in E1. exists a', []. now rewrite app_nil_r, E1.
    + exfalso. destruct (exists_last (l := x :: l)) as (l0 & y & El);
        [discriminate|].
      rewrite El, Ep', !app_assoc in E1. apply app_inj_tail in E1 as [_ <-].
      rewrite El in E2. rewrite E2 in FV.
      apply Forall_app in FV as [FV _]. apply Forall_app in FV as [_ FV].
      inversion FV; subst. congruence.
  - exists a', l. now rewrite E1, <- app_assoc.
Qed.

Lemma contains_lower_strip_back p l c p1 p2 d :
  p = c :: p1 -> is_space c = false -> p = p2 ++ [d] -> is_space d = false ->
  contains p (lower l) = true -> contains p (lower (strip l)) = true.
Proof.
  intros Ep Hc Ep' Hd H. apply contains_spec in H as (a & b & E).
  destruct (strip_split l) as (u & v & El & Fu & Fv).
  rewrite El in E at 1. unfold lower in E. rewrite !map_app in E.
  symmetry in E.
  destruct (@infix_inside_strip p _ _ _ a b c p1 p2 d E)
    as (a' & b' & ES); try assumption.
  - apply Forall_forall. intros x Hx. apply in_map_iff in Hx as (y & <- & Hy).
    rewrite Forall_forall in Fu. now apply lower_space, Fu.
  - apply Forall_forall. intros x Hx. apply in_map_iff in Hx as (y & <- & Hy).
    rewrite Forall_forall in Fv. now apply lower_space, Fv.
  - apply contains_spec. exists a', b'. exact ES.
Qed.

Lemma contains_lower_strip_eq p l c p1 p2 d :
  p = c :: p1 -> is_space c = false -> p = p2 ++ [d] -> is_space d = false ->
  contains p (lower (strip l)) = contains p (lower l).
Proof.
  intros Ep Hc Ep' Hd.
  destruct (contains p (lower l)) eqn:E.
  - now apply (@contains_lower_strip_back p l c p1 p2 d Ep Hc Ep' Hd).
  - now apply contains_lower_strip_false.
Qed.

(** X16: a line is taken for a section header exactly when its lower-cased
    text contains the section's phrases; stripping the line first makes no
    difference, and the letter case of the line is ignored. *)
Theorem header_detection (l : str) :
  is_session_header (lower (strip l))
  = contains (s2l "current session") (lower l) /\
  is_weekly_header (lower (strip l))
  = (contains (s2l "current week") (lower l)
     && contains (s2l "all models") (lower l))%bool /\
  is_sonnet_header (lower (strip l))
  = contains (s2l "sonnet only") (lower l).
Proof.
  unfold is_session_header, is_weekly_header, is_sonnet_header.
  repeat split.
  - apply (@contains_lower_strip_eq _ l (ch "c") (s2l "urrent session")
             (s2l "current sessio") (ch "n")); reflexivity.
  - f_equal.
    + apply (@contains_lower_strip_eq _ l (ch "c") (s2l "urrent week")
               (s2l "current wee") (ch "k")); reflexivity.
    + apply (@contains_lower_strip_eq _ l (ch "a") (s2l "ll models")
               (s2l "all model") (ch "s")); reflexivity.
  - apply (@contains_lower_strip_eq _ l (ch "s") (s2l "onnet only")
             (s2l "sonnet onl") (ch "y")); reflexivity.
Qed.
